(** * mime-detector: magic-byte signatures, extension fallback, category tests

    A shallow embedding of [src/magicBytes.ts], [src/mimeTypes.ts] and
    [src/index.ts].

    - JavaScript numbers are modelled by [Z] (only integers occur); the
      bitwise [&] goes through [ToInt32], with its wrap-around written out.
    - A [Buffer] (a [Uint8Array]) is a [list Z]; reading an index that is
      not an element yields [undefined], modelled by [None].
    - Strings are [string]; [toLowerCase] is the ASCII case mapping (the
      model covers ASCII descriptors and MIME types).
    - [path] is Node's POSIX [path] module.
    - The file system and the HTTP client are an explicit [World]. *)

From Stdlib Require Import ZArith String Ascii List Bool Lia.
Import ListNotations.
Local Open Scope string_scope.
Local Open Scope list_scope.
Local Open Scope Z_scope.

(* ================================================================== *)
(** * Part I. Definitions *)
(* ================================================================== *)

(** ** JavaScript primitives used by the matcher *)

(** [ToInt32] of an integral number: reduce modulo 2^32 into the signed
    range. *)
Definition ToInt32 (n : Z) : Z :=
  let m := n mod 2 ^ 32 in
  if 2 ^ 31 <=? m then m - 2 ^ 32 else m.

(** Operand conversion of [&]: [undefined] converts to [NaN], hence 0. *)
Definition toInt32 (v : option Z) : Z :=
  match v with
  | Some n => ToInt32 n
  | None => 0
  end.

(** [a & b]. *)
Definition bitAnd (a b : option Z) : Z :=
  Z.land (toInt32 a) (toInt32 b).

(** [arr[i]] on an array or a [Buffer]: [undefined] outside the elements. *)
Definition arrayGet (arr : list Z) (i : Z) : option Z :=
  if i <? 0 then None else nth_error arr (Z.to_nat i).

Definition jsLength (arr : list Z) : Z := Z.of_nat (List.length arr).

(** ** [magicBytes.ts]: the signature table *)

Record MagicByte : Type := {
  bytes : list Z;
  mask : option (list Z);
  offset : option Z
}.

Record MagicByteDefinition : Type := {
  mimeType : string;
  signatures : list MagicByte
}.

Definition Buffer : Type := list Z.

(** [{ bytes: bs }] and [{ bytes: bs, offset: o }]. *)
Definition sigOf (bs : list Z) : MagicByte :=
  {| bytes := bs; mask := None; offset := None |}.

Definition sigAt (bs : list Z) (o : Z) : MagicByte :=
  {| bytes := bs; mask := None; offset := Some o |}.

Definition pdfDef : MagicByteDefinition :=
  {| mimeType := "application/pdf";
     signatures := [sigOf [0x25; 0x50; 0x44; 0x46]] |}.

Definition jpegDef : MagicByteDefinition :=
  {| mimeType := "image/jpeg";
     signatures := [sigOf [0xff; 0xd8; 0xff; 0xe0];
                    sigOf [0xff; 0xd8; 0xff; 0xe1];
                    sigOf [0xff; 0xd8; 0xff; 0xe8]] |}.

Definition pngDef : MagicByteDefinition :=
  {| mimeType := "image/png";
     signatures := [sigOf [0x89; 0x50; 0x4e; 0x47; 0x0d; 0x0a; 0x1a; 0x0a]] |}.

Definition gifDef : MagicByteDefinition :=
  {| mimeType := "image/gif";
     signatures := [sigOf [0x47; 0x49; 0x46; 0x38; 0x37; 0x61];
                    sigOf [0x47; 0x49; 0x46; 0x38; 0x39; 0x61]] |}.

Definition mp3Def : MagicByteDefinition :=
  {| mimeType := "audio/mpeg";
     signatures := [sigOf [0x49; 0x44; 0x33];
                    sigOf [0xff; 0xfb]] |}.

Definition mp4Def : MagicByteDefinition :=
  {| mimeType := "video/mp4";
     signatures := [sigAt [0x66; 0x74; 0x79; 0x70] 4;
                    sigAt [0x6d; 0x70; 0x34; 0x32] 8] |}.

Definition webmDef : MagicByteDefinition :=
  {| mimeType := "video/webm";
     signatures := [sigOf [0x1a; 0x45; 0xdf; 0xa3]] |}.

Definition magicBytes : list MagicByteDefinition :=
  [pdfDef; jpegDef; pngDef; gifDef; mp3Def; mp4Def; webmDef].

(** ** [index.ts]: [checkMagicBytes] *)

(** [signature.offset || 0]: an absent offset and the offset 0 are both
    falsy. *)
Definition signatureOffset (signature : MagicByte) : Z :=
  match offset signature with
  | Some o => if o =? 0 then 0 else o
  | None => 0
  end.

(** [signature.mask ? signature.mask[i] : 0xff]: an array is truthy
    whatever its length. *)
Definition maskAt (signature : MagicByte) (i : Z) : option Z :=
  match mask signature with
  | Some m => arrayGet m i
  | None => Some 0xff
  end.

(** The inner [for] loop, from index [i] on; [remaining] holds
    [signature.bytes[i..]].  [false] is the [matches = false; break]
    exit, [true] the exit at [i = signature.bytes.length]. *)
Fixpoint compareBytes (buffer : Buffer) (signature : MagicByte)
    (off i : Z) (remaining : list Z) : bool :=
  match remaining with
  | [] => true
  | signatureByte :: rest =>
      let byte := arrayGet buffer (off + i) in
      let m := maskAt signature i in
      if negb (bitAnd byte m =? bitAnd (Some signatureByte) m)
      then false
      else compareBytes buffer signature off (i + 1) rest
  end.

(** One iteration of the loop over [type.signatures]: the length guard
    ([continue]) followed by the comparison loop; the result is the
    final value of [matches] ([false] when the guard skipped). *)
Definition signatureMatches (buffer : Buffer) (signature : MagicByte) : bool :=
  let off := signatureOffset signature in
  if jsLength buffer <? off + jsLength (bytes signature)
  then false
  else compareBytes buffer signature off 0 (bytes signature).

(** The loop over [type.signatures]: [true] when some iteration reaches
    [return type.mimeType]. *)
Fixpoint anySignatureMatches (buffer : Buffer) (sigs : list MagicByte) : bool :=
  match sigs with
  | [] => false
  | signature :: rest =>
      if signatureMatches buffer signature then true
      else anySignatureMatches buffer rest
  end.

(** The outer loop, over an arbitrary table. [None] is [null]. *)
Fixpoint checkMagicBytesIn (table : list MagicByteDefinition)
    (buffer : Buffer) : option string :=
  match table with
  | [] => None
  | type :: rest =>
      if anySignatureMatches buffer (signatures type)
      then Some (mimeType type)
      else checkMagicBytesIn rest buffer
  end.

Definition checkMagicBytes (buffer : Buffer) : option string :=
  checkMagicBytesIn magicBytes buffer.

(** *** The same loops, recording every index read from [buffer] *)

Fixpoint compareBytesTr (buffer : Buffer) (signature : MagicByte)
    (off i : Z) (remaining : list Z) : bool * list Z :=
  match remaining with
  | [] => (true, [])
  | signatureByte :: rest =>
      let byte := arrayGet buffer (off + i) in
      let m := maskAt signature i in
      if negb (bitAnd byte m =? bitAnd (Some signatureByte) m)
      then (false, [off + i])
      else
        let '(r, reads) := compareBytesTr buffer signature off (i + 1) rest in
        (r, (off + i) :: reads)
  end.

Definition signatureMatchesTr (buffer : Buffer) (signature : MagicByte)
    : bool * list Z :=
  let off := signatureOffset signature in
  if jsLength buffer <? off + jsLength (bytes signature)
  then (false, [])
  else compareBytesTr buffer signature off 0 (bytes signature).

Fixpoint anySignatureMatchesTr (buffer : Buffer) (sigs : list MagicByte)
    : bool * list Z :=
  match sigs with
  | [] => (false, [])
  | signature :: rest =>
      let '(r, reads) := signatureMatchesTr buffer signature in
      if r then (true, reads)
      else
        let '(r', reads') := anySignatureMatchesTr buffer rest in
        (r', reads ++ reads')
  end.

Fixpoint checkMagicBytesInTr (table : list MagicByteDefinition)
    (buffer : Buffer) : option string * list Z :=
  match table with
  | [] => (None, [])
  | type :: rest =>
      let '(r, reads) := anySignatureMatchesTr buffer (signatures type) in
      if r then (Some (mimeType type), reads)
      else
        let '(r', reads') := checkMagicBytesInTr rest buffer in
        (r', reads ++ reads')
  end.

Definition checkMagicBytesTr (buffer : Buffer) : option string * list Z :=
  checkMagicBytesInTr magicBytes buffer.

(** An index is inside a buffer. *)
Definition inBounds (buffer : Buffer) (k : Z) : Prop :=
  0 <= k < jsLength buffer.

(** ** JavaScript values, objects and strings used by the resolver *)

(** The values a property read of [mimeTypes] can produce. *)
Inductive JsValue : Type :=
| JsUndefined
| JsString (s : string)
| JsFunction (name : string)
| JsObjectPrototype.

(** Truthiness, as [||] and [if] test it. *)
Definition truthy (v : JsValue) : bool :=
  match v with
  | JsUndefined => false
  | JsString s => negb (s =? "")%string
  | JsFunction _ => true
  | JsObjectPrototype => true
  end.

(** [a || b]. *)
Definition jsOr (a b : JsValue) : JsValue :=
  if truthy a then a else b.

Fixpoint assoc {A : Type} (key : string) (entries : list (string * A))
    : option A :=
  match entries with
  | [] => None
  | (k, v) :: rest => if (k =? key)%string then Some v else assoc key rest
  end.

(** The properties of [Object.prototype], which every object literal
    inherits.  [__proto__] is the accessor whose getter yields the
    receiver's prototype, here [Object.prototype] itself. *)
Definition objectPrototype : list (string * JsValue) :=
  [("constructor", JsFunction "Object");
   ("__defineGetter__", JsFunction "__defineGetter__");
   ("__defineSetter__", JsFunction "__defineSetter__");
   ("hasOwnProperty", JsFunction "hasOwnProperty");
   ("__lookupGetter__", JsFunction "__lookupGetter__");
   ("__lookupSetter__", JsFunction "__lookupSetter__");
   ("isPrototypeOf", JsFunction "isPrototypeOf");
   ("propertyIsEnumerable", JsFunction "propertyIsEnumerable");
   ("toString", JsFunction "toString");
   ("valueOf", JsFunction "valueOf");
   ("__proto__", JsObjectPrototype);
   ("toLocaleString", JsFunction "toLocaleString")].

(** An object literal whose own properties are strings: the own
    properties in insertion order. *)
Definition StringObject : Type := list (string * string).

(** [obj[key]]: the own property if there is one, otherwise the
    property found along the prototype chain, otherwise [undefined]. *)
Definition getProperty (obj : StringObject) (key : string) : JsValue :=
  match assoc key obj with
  | Some v => JsString v
  | None =>
      match assoc key objectPrototype with
      | Some v => v
      | None => JsUndefined
      end
  end.

(** [Object.entries(obj)]: own enumerable string-keyed properties, in
    insertion order when no key is an array index (none of the keys of
    [mimeTypes] is). *)
Definition objectEntries (obj : StringObject) : list (string * string) := obj.

Definition lowerChar (c : ascii) : ascii :=
  let n := nat_of_ascii c in
  if (65 <=? n)%nat && (n <=? 90)%nat then ascii_of_nat (n + 32) else c.

(** [s.toLowerCase()] on ASCII text. *)
Fixpoint toLowerCase (s : string) : string :=
  match s with
  | EmptyString => EmptyString
  | String c rest => String (lowerChar c) (toLowerCase rest)
  end.

(** [s.slice(1)]. *)
Definition slice1 (s : string) : string :=
  match s with
  | EmptyString => EmptyString
  | String _ rest => rest
  end.

(** [s.slice(a, b)] for [0 <= a <= b <= s.length]. *)
Definition slice (s : string) (a b : Z) : string :=
  substring (Z.to_nat a) (Z.to_nat (b - a)) s.

(** [s.startsWith(p)]. *)
Definition startsWith (s p : string) : bool := prefix p s.

(** ** [mimeTypes.ts]: the extension table *)

Definition mimeTypes : StringObject :=
  [("pdf", "application/pdf");
   ("doc", "application/msword");
   ("docx", "application/vnd.openxmlformats-officedocument.wordprocessingml.document");
   ("txt", "text/plain");
   ("rtf", "application/rtf");
   ("jpg", "image/jpeg");
   ("jpeg", "image/jpeg");
   ("png", "image/png");
   ("gif", "image/gif");
   ("webp", "image/webp");
   ("svg", "image/svg+xml");
   ("mp3", "audio/mpeg");
   ("wav", "audio/wav");
   ("ogg", "audio/ogg");
   ("m4a", "audio/mp4");
   ("mp4", "video/mp4");
   ("webm", "video/webm");
   ("avi", "video/x-msvideo");
   ("mov", "video/quicktime");
   ("mkv", "video/x-matroska")].

(** ** Node's [path.extname] (POSIX)

    [index.ts] imports Node's [path]; its [extname] is the loop
<<
      let startDot = -1, startPart = 0, end = -1;
      let matchedSlash = true, preDotState = 0;
      for (let i = path.length - 1; i >= 0; --i) {
        const code = path.charCodeAt(i);
        if (code === 47 /* / */) {
          if (!matchedSlash) { startPart = i + 1; break; }
          continue;
        }
        if (end === -1) { matchedSlash = false; end = i + 1; }
        if (code === 46 /* . */) {
          if (startDot === -1) startDot = i;
          else if (preDotState !== 1) preDotState = 1;
        } else if (startDot !== -1) {
          preDotState = -1;
        }
      }
      if (startDot === -1 || end === -1 || preDotState === 0 ||
          (preDotState === 1 && startDot === end - 1 &&
           startDot === startPart + 1))
        return '';
      return path.slice(startDot, end);
>>
*)

Record ExtnameState : Type := {
  startDot : Z;
  startPart : Z;
  endIdx : Z;
  matchedSlash : bool;
  preDotState : Z
}.

Definition extnameInit : ExtnameState :=
  {| startDot := -1; startPart := 0; endIdx := -1;
     matchedSlash := true; preDotState := 0 |}.

(** The loop [for (i = path.length - 1; i >= 0; --i)].  The argument is
    [path[0..i]] reversed: its head is [path[i]] and [i] is the length
    of its tail. *)
Fixpoint extnameScan (revChars : list ascii) (st : ExtnameState)
    : ExtnameState :=
  match revChars with
  | [] => st
  | code :: before =>
      let i := Z.of_nat (List.length before) in
      if (code =? "/")%char then
        if negb (matchedSlash st) then
          (* startPart = i + 1; break *)
          {| startDot := startDot st; startPart := i + 1;
             endIdx := endIdx st; matchedSlash := matchedSlash st;
             preDotState := preDotState st |}
        else extnameScan before st
      else
        let st1 :=
          if endIdx st =? -1 then
            {| startDot := startDot st; startPart := startPart st;
               endIdx := i + 1; matchedSlash := false;
               preDotState := preDotState st |}
          else st in
        let st2 :=
          if (code =? ".")%char then
            if startDot st1 =? -1 then
              {| startDot := i; startPart := startPart st1;
                 endIdx := endIdx st1; matchedSlash := matchedSlash st1;
                 preDotState := preDotState st1 |}
            else if negb (preDotState st1 =? 1) then
              {| startDot := startDot st1; startPart := startPart st1;
                 endIdx := endIdx st1; matchedSlash := matchedSlash st1;
                 preDotState := 1 |}
            else st1
          else if negb (startDot st1 =? -1) then
            {| startDot := startDot st1; startPart := startPart st1;
               endIdx := endIdx st1; matchedSlash := matchedSlash st1;
               preDotState := -1 |}
          else st1 in
        extnameScan before st2
  end.

Definition extname (path : string) : string :=
  let st := extnameScan (rev (list_ascii_of_string path)) extnameInit in
  if (startDot st =? -1)
     || (endIdx st =? -1)
     || (preDotState st =? 0)
     || ((preDotState st =? 1)
         && (startDot st =? endIdx st - 1)
         && (startDot st =? startPart st + 1))
  then ""
  else slice path (startDot st) (endIdx st).

(** ** The external collaborators *)

(** What [fs.openSync] / [fs.readSync] find at a path. *)
Inductive FileState : Type :=
| NoSuchFile
| ReadError
| FileBytes (content : list Z).

Record World : Type := {
  fsFile : string -> FileState;
  httpBody : string -> option (list Z)
}.

(** [Buffer.alloc(n)]: [n] zero bytes. *)
Definition bufferAlloc (n : nat) : Buffer := repeat 0 n.

(** [fs.readSync(fd, buffer, off, len, pos)] on a file holding
    [content]: the bytes available from [pos], at most [len] of them,
    overwrite [buffer] from index [off]; the rest of [buffer] is left as
    it was.  The number of bytes read is the call's result, which
    [getMimeType] drops. *)
Definition readSyncInto (content : list Z) (buffer : Buffer)
    (off len pos : nat) : Buffer :=
  let chunk := firstn (Nat.min len (List.length buffer - off))
                      (skipn pos content) in
  firstn off buffer ++ chunk ++ skipn (off + List.length chunk) buffer.

(** ** [index.ts]: [getMimeType] and the derived functions *)

(** [getBufferFromUrl]: the body of the response, or a thrown exception
    ([None]) when the request fails. *)
Definition getBufferFromUrl (w : World) (url : string) : option Buffer :=
  httpBody w url.

Definition isUrl (filePathOrUrl : string) : bool :=
  startsWith filePathOrUrl "http://" || startsWith filePathOrUrl "https://".

(** The acquisition part of the [try] block; [None] is a thrown
    exception, which transfers control to the [catch] block. *)
Definition acquire (w : World) (filePathOrUrl : string) : option Buffer :=
  if isUrl filePathOrUrl then
    getBufferFromUrl w filePathOrUrl
  else
    match fsFile w filePathOrUrl with
    | NoSuchFile => None
    | ReadError => None
    | FileBytes content =>
        Some (readSyncInto content (bufferAlloc 12) 0 12 0)
    end.

(** [path.extname(filePathOrUrl).toLowerCase().slice(1)]. *)
Definition derivedExtension (filePathOrUrl : string) : string :=
  slice1 (toLowerCase (extname filePathOrUrl)).

(** [mimeTypes[extension] || 'application/octet-stream'], over an
    arbitrary table. *)
Definition extensionFallback (table : StringObject)
    (filePathOrUrl : string) : JsValue :=
  let extension := derivedExtension filePathOrUrl in
  jsOr (getProperty table extension) (JsString "application/octet-stream").

(** The value the promise of [getMimeType] resolves to. *)
Definition getMimeTypeIn (table : StringObject) (w : World)
    (filePathOrUrl : string) : JsValue :=
  match acquire w filePathOrUrl with
  | Some buffer =>
      match checkMagicBytes buffer with
      | Some magicByteMimeType =>
          if truthy (JsString magicByteMimeType)
          then JsString magicByteMimeType
          else extensionFallback table filePathOrUrl
      | None => extensionFallback table filePathOrUrl
      end
  | None => extensionFallback table filePathOrUrl
  end.

Definition getMimeType (w : World) (filePathOrUrl : string) : JsValue :=
  getMimeTypeIn mimeTypes w filePathOrUrl.

(** The tests the four predicates apply to a MIME type string. *)
Definition documentTest (m : string) : bool :=
  startsWith m "application/" || (m =? "text/plain")%string.
Definition imageTest (m : string) : bool := startsWith m "image/".
Definition audioTest (m : string) : bool := startsWith m "audio/".
Definition videoTest (m : string) : bool := startsWith m "video/".

(** A method call [mimeType.startsWith(..)] on the resolved value:
    only a string has the method; on any other value the call throws a
    [TypeError] ([None]). *)
Definition onString (test : string -> bool) (v : JsValue) : option bool :=
  match v with
  | JsString s => Some (test s)
  | _ => None
  end.

Definition isDocument (w : World) (filePathOrUrl : string) : option bool :=
  onString documentTest (getMimeType w filePathOrUrl).
Definition isImage (w : World) (filePathOrUrl : string) : option bool :=
  onString imageTest (getMimeType w filePathOrUrl).
Definition isAudio (w : World) (filePathOrUrl : string) : option bool :=
  onString audioTest (getMimeType w filePathOrUrl).
Definition isVideo (w : World) (filePathOrUrl : string) : option bool :=
  onString videoTest (getMimeType w filePathOrUrl).

(** [getMimeExtension]; [None] is [null]. *)
Definition getMimeExtensionIn (table : StringObject) (mimeType : string)
    : option string :=
  let normalizedMimeType := toLowerCase mimeType in
  match find (fun entry => (toLowerCase (snd entry) =? normalizedMimeType)%string)
             (objectEntries table) with
  | Some extension => Some ("." ++ fst extension)%string
  | None => None
  end.

Definition getMimeExtension (mimeType : string) : option string :=
  getMimeExtensionIn mimeTypes mimeType.

(** How many of the given tests hold. *)
Definition countTrue (tests : list bool) : nat :=
  List.length (filter (fun b : bool => b) tests).

(** A predicate's promise resolved to [true]. *)
Definition holds (o : option bool) : bool :=
  match o with
  | Some true => true
  | _ => false
  end.

(** ** Example environments *)

(** The head of a JFIF file. *)
Definition jpegHead : list Z :=
  [0xff; 0xd8; 0xff; 0xe0; 0x00; 0x10; 0x4a; 0x46; 0x49; 0x46; 0x00; 0x01;
   0x01; 0x01].

(** A three-byte file holding just an ID3 tag marker. *)
Definition id3Only : list Z := [0x49; 0x44; 0x33].

(** Plain text: no signature of the table occurs in it. *)
Definition helloText : list Z := [0x68; 0x65; 0x6c; 0x6c; 0x6f].

(** A file system with four readable files and one unreadable one, and
    a network on which every request fails. *)
Definition exampleWorld : World :=
  {| fsFile := fun p =>
       if (p =? "a.txt")%string then FileBytes jpegHead
       else if (p =? "short.mp3")%string then FileBytes id3Only
       else if (p =? "notes.constructor")%string then FileBytes helloText
       else if (p =? "notes.xyz")%string then FileBytes helloText
       else if (p =? "locked.pdf")%string then ReadError
       else NoSuchFile;
     httpBody := fun _ => None |}.

(** ** Specification-side vocabulary *)

(** The buffer is long enough for the signature: the negation of the
    guard of [checkMagicBytes]. *)
Definition sufficientLength (buffer : Buffer) (signature : MagicByte) : Prop :=
  signatureOffset signature + jsLength (bytes signature) <= jsLength buffer.

(** [(buffer[offset+i] & mask[i]) == (bytes[i] & mask[i])], the mask
    being [0xff] at every position of a signature without a mask. *)
Definition positionMatches (buffer : Buffer) (signature : MagicByte)
    (i : Z) : Prop :=
  bitAnd (arrayGet buffer (signatureOffset signature + i)) (maskAt signature i)
  = bitAnd (arrayGet (bytes signature) i) (maskAt signature i).

(** A signature matches fully: enough bytes, and every position agrees. *)
Definition fullyMatches (buffer : Buffer) (signature : MagicByte) : Prop :=
  sufficientLength buffer signature /\
  forall i, 0 <= i < jsLength (bytes signature) ->
            positionMatches buffer signature i.

(** The table read in group-then-signature declaration order: every
    signature paired with the MIME type of its group. *)
Definition declarationOrder (table : list MagicByteDefinition)
    : list (string * MagicByte) :=
  flat_map (fun type => map (pair (mimeType type)) (signatures type)) table.

(** The buffer reaches at least to the end of the signature, and its
    bytes at the signature's offset equal the signature's bytes. *)
Definition holdsSignature (buffer : Buffer) (signature : MagicByte) : Prop :=
  sufficientLength buffer signature /\
  firstn (List.length (bytes signature))
         (skipn (Z.to_nat (signatureOffset signature)) buffer)
  = bytes signature.

(** The character [c] occurs in [s]. *)
Definition hasChar (c : ascii) (s : string) : bool :=
  existsb (fun x => (x =? c)%char) (list_ascii_of_string s).

(** [k] characters ['/']. *)
Fixpoint slashes (k : nat) : string :=
  match k with
  | O => EmptyString
  | S k' => String "/" (slashes k')
  end.

(** [base] is the last path segment of the descriptor [d]: [d] is a
    directory part ending in ['/'] (or nothing), then [base], which
    holds no ['/'], then trailing ['/'] characters; [base] is empty
    only when the descriptor holds nothing but ['/'] characters. *)
Definition lastSegment (d base : string) : Prop :=
  hasChar "/" base = false /\
  exists (dir : string) (k : nat),
    d = (dir ++ base ++ slashes k)%string /\
    (dir = "" \/ exists dir', dir = (dir' ++ "/")%string) /\
    (base = "" -> dir = "").

(** The extension is the name of a property that [mimeTypes] inherits
    from [Object.prototype]. *)
Definition inheritedName (extension : string) : bool :=
  match assoc extension objectPrototype with
  | Some _ => true
  | None => false
  end.

(** The length of a run of characters, as a JavaScript number. *)
Definition len (l : list ascii) : Z := Z.of_nat (List.length l).

(** A signature that zero padding cannot complete: it has no mask, a
    non-negative offset, at least one byte, and no byte that is zero
    under the mask [0xff]. *)
Definition paddingProof (signature : MagicByte) : Prop :=
  mask signature = None /\
  0 <= signatureOffset signature /\
  bytes signature <> [] /\
  Forall (fun b => bitAnd (Some b) (Some 0xff) <> 0) (bytes signature).

(** States of the scan of [path.extname]: the end of the extension is
    marked at [e]; and the dot is found at [sd] as well. *)
Definition ended (e : Z) : ExtnameState :=
  {| startDot := -1; startPart := 0; endIdx := e;
     matchedSlash := false; preDotState := 0 |}.

Definition dotted (sd e : Z) : ExtnameState :=
  {| startDot := sd; startPart := 0; endIdx := e;
     matchedSlash := false; preDotState := 0 |}.

(** A character that is neither ['/'] nor ['.']. *)
Definition plainChar (c : ascii) : bool :=
  negb (c =? "/")%char && negb (c =? ".")%char.

(** The head of an MP4 file: a box size, then [ftyp] and the brand. *)
Definition mp4Head : list Z :=
  [0x00; 0x00; 0x00; 0x18; 0x66; 0x74; 0x79; 0x70; 0x6d; 0x70; 0x34; 0x32;
   0x00; 0x00; 0x00; 0x00].

(** A world in which a local file and a URL hold the same MP4 bytes. *)
Definition mirrorWorld : World :=
  {| fsFile := fun p =>
       if (p =? "clip.mp4")%string then FileBytes mp4Head else NoSuchFile;
     httpBody := fun u =>
       if (u =? "https://x.com/clip.mp4")%string then Some mp4Head else None |}.

(** ** Vocabulary for the properties beyond the claims *)

(** The elements of a [Buffer] are bytes. *)
Definition byteBuffer (buffer : Buffer) : Prop :=
  Forall (fun b => 0 <= b <= 255) buffer.

(** A signature as the built-in table writes them: no mask, a
    non-negative offset, and bytes in [0..255]. *)
Definition plainSignature (signature : MagicByte) : Prop :=
  mask signature = None /\
  0 <= signatureOffset signature /\
  Forall (fun b => 0 <= b <= 255) (bytes signature).

(** The signature lies inside the first [n] bytes. *)
Definition endsWithin (n : Z) (signature : MagicByte) : Prop :=
  0 <= signatureOffset signature /\
  signatureOffset signature + jsLength (bytes signature) <= n.

(** The signature needs at least [n] bytes. *)
Definition needsAtLeast (n : Z) (signature : MagicByte) : Prop :=
  n <= signatureOffset signature + jsLength (bytes signature).

(** The groups of the table whose signatures are anchored at offset 0. *)
Definition offsetZeroGroups : list MagicByteDefinition :=
  [pdfDef; jpegDef; pngDef; gifDef; mp3Def; webmDef].

(** The [try] block of [getMimeType] produced no signature result: the
    acquisition threw, or the matcher returned [null]. *)
Definition noSignatureResult (w : World) (filePathOrUrl : string) : Prop :=
  acquire w filePathOrUrl = None \/
  exists buffer, acquire w filePathOrUrl = Some buffer /\
                 checkMagicBytes buffer = None.

(* ================================================================== *)
(** * Part II. Properties *)
(* ================================================================== *)

(** ** The signature matcher *)

Lemma arrayGet_nat (arr : list Z) (k : nat) :
  arrayGet arr (Z.of_nat k) = nth_error arr k.
Proof.
  unfold arrayGet.
  destruct (Z.ltb_spec (Z.of_nat k) 0) as [H | H]; [lia |].
  now rewrite Nat2Z.id.
Qed.

Lemma arrayGet_inBounds (arr : list Z) (i : Z) :
  0 <= i < jsLength arr -> exists b, arrayGet arr i = Some b.
Proof.
  unfold jsLength, arrayGet. intros [H0 H1].
  destruct (Z.ltb_spec i 0) as [H | _]; [lia |].
  destruct (nth_error arr (Z.to_nat i)) as [b |] eqn:E; [now exists b |].
  apply nth_error_None in E. lia.
Qed.

(** The comparison loop returns [true] exactly when every remaining
    position agrees under its mask. *)
Lemma compareBytes_true_iff buffer signature off :
  forall remaining i,
    compareBytes buffer signature off i remaining = true <->
    forall k : nat, (k < List.length remaining)%nat ->
      bitAnd (arrayGet buffer (off + (i + Z.of_nat k)))
             (maskAt signature (i + Z.of_nat k))
      = bitAnd (nth_error remaining k) (maskAt signature (i + Z.of_nat k)).
Proof.
  induction remaining as [| b rest IH]; intros i; simpl.
  - split; [intros _ k Hk; lia | reflexivity].
  - destruct (Z.eqb_spec (bitAnd (arrayGet buffer (off + i)) (maskAt signature i))
                         (bitAnd (Some b) (maskAt signature i))) as [E | E]; simpl.
    + rewrite IH. split.
      * intros H [| k] Hk.
        -- simpl. now rewrite Z.add_0_r.
        -- simpl nth_error.
           replace (i + Z.of_nat (S k)) with (i + 1 + Z.of_nat k) by lia.
           apply H. lia.
      * intros H k Hk.
        replace (i + 1 + Z.of_nat k) with (i + Z.of_nat (S k)) by lia.
        apply (H (S k)). lia.
    + split; [discriminate |].
      intros H. exfalso. apply E.
      specialize (H 0%nat ltac:(lia)). simpl in H.
      now rewrite Z.add_0_r in H.
Qed.

Lemma signatureMatches_iff buffer signature :
  signatureMatches buffer signature = true <-> fullyMatches buffer signature.
Proof.
  unfold signatureMatches, fullyMatches, sufficientLength, positionMatches.
  destruct (Z.ltb_spec (jsLength buffer)
              (signatureOffset signature + jsLength (bytes signature)))
    as [Hshort | Hlong].
  - split; [discriminate | intros [H _]; lia].
  - rewrite compareBytes_true_iff. split.
    + intros H. split; [exact Hlong |].
      intros i [Hi0 Hi1]. unfold jsLength in Hi1.
      specialize (H (Z.to_nat i) ltac:(lia)).
      rewrite Z.add_0_l, Z2Nat.id in H by lia.
      rewrite <- (Z2Nat.id i) at 3 by lia.
      now rewrite arrayGet_nat.
    + intros [_ H] k Hk.
      specialize (H (Z.of_nat k) ltac:(unfold jsLength; lia)).
      rewrite Z.add_0_l. now rewrite arrayGet_nat in H.
Qed.

Lemma signatureMatches_false_iff buffer signature :
  signatureMatches buffer signature = false <-> ~ fullyMatches buffer signature.
Proof.
  rewrite <- signatureMatches_iff.
  destruct (signatureMatches buffer signature); split; congruence.
Qed.

Lemma anySignatureMatches_existsb buffer sigs :
  anySignatureMatches buffer sigs = existsb (signatureMatches buffer) sigs.
Proof.
  induction sigs as [| s rest IH]; simpl; [reflexivity |].
  now destruct (signatureMatches buffer s).
Qed.

Lemma find_app_none {A} (f : A -> bool) (l1 l2 : list A) :
  find f l1 = None -> find f (l1 ++ l2) = find f l2.
Proof.
  induction l1 as [| x l1 IH]; simpl; [reflexivity |].
  destruct (f x); [discriminate | exact IH].
Qed.

Lemma find_map_pair_some buffer m sigs rest :
  existsb (signatureMatches buffer) sigs = true ->
  option_map fst
    (find (fun entry : string * MagicByte => signatureMatches buffer (snd entry))
          (map (pair m) sigs ++ rest)) = Some m.
Proof.
  induction sigs as [| s sigs IH]; simpl; [discriminate |].
  destruct (signatureMatches buffer s); simpl; [reflexivity | exact IH].
Qed.

Lemma find_map_pair_none buffer (m : string) sigs :
  existsb (signatureMatches buffer) sigs = false ->
  find (fun entry : string * MagicByte => signatureMatches buffer (snd entry))
       (map (pair m) sigs) = None.
Proof.
  induction sigs as [| s sigs IH]; simpl; [reflexivity |].
  destruct (signatureMatches buffer s); simpl; [discriminate | exact IH].
Qed.

(** The nested loops return the MIME type of the first matching entry
    in declaration order. *)
Lemma checkMagicBytesIn_find table buffer :
  checkMagicBytesIn table buffer
  = option_map fst
      (find (fun entry => signatureMatches buffer (snd entry))
            (declarationOrder table)).
Proof.
  induction table as [| type rest IH]; simpl; [reflexivity |].
  rewrite anySignatureMatches_existsb.
  destruct (existsb (signatureMatches buffer) (signatures type)) eqn:E.
  - symmetry. now apply find_map_pair_some.
  - rewrite find_app_none by now apply find_map_pair_none.
    exact IH.
Qed.

Lemma find_first_split {A} (f : A -> bool) (l : list A) (x : A) :
  find f l = Some x <->
  exists before after,
    l = before ++ x :: after /\ f x = true /\
    forall y, In y before -> f y = false.
Proof.
  induction l as [| a l IH]; simpl.
  - split; [discriminate |].
    intros (before & after & H & _). now destruct before.
  - destruct (f a) eqn:Fa.
    + split.
      * intros [= <-]. exists [], l. simpl. repeat split; [exact Fa | tauto].
      * intros (before & after & H & Fx & Hb).
        destruct before as [| b before]; simpl in H.
        -- now injection H as -> _.
        -- injection H as <- _. rewrite (Hb a) in Fa by now left. discriminate.
    + rewrite IH. split.
      * intros (before & after & -> & Fx & Hb).
        exists (a :: before), after. simpl. repeat split; [exact Fx |].
        intros y [<- | Hy]; [exact Fa | now apply Hb].
      * intros (before & after & H & Fx & Hb).
        destruct before as [| b before]; simpl in H.
        -- injection H as <- _. congruence.
        -- injection H as <- ->. exists before, after.
           repeat split; [exact Fx |]. intros y Hy. apply Hb. now right.
Qed.

Lemma find_none_iff {A} (f : A -> bool) (l : list A) :
  find f l = None <-> forall x, In x l -> f x = false.
Proof.
  split; [apply find_none |].
  induction l as [| a l IH]; simpl; intros H; [reflexivity |].
  rewrite (H a) by now left. apply IH. intros x Hx. apply H. now right.
Qed.

(** *** The recorded reads *)

Section Reads.

Variable buffer : Buffer.

Lemma compareBytesTr_fst signature off :
  forall remaining i,
    fst (compareBytesTr buffer signature off i remaining)
    = compareBytes buffer signature off i remaining.
Proof.
  induction remaining as [| b rest IH]; intros i; simpl; [reflexivity |].
  destruct (negb _); [reflexivity |].
  specialize (IH (i + 1)).
  now destruct (compareBytesTr buffer signature off (i + 1) rest).
Qed.

Lemma compareBytesTr_reads signature off :
  forall remaining i,
    Forall (fun r => off + i <= r < off + i + jsLength remaining)
           (snd (compareBytesTr buffer signature off i remaining)).
Proof.
  unfold jsLength.
  induction remaining as [| b rest IH]; intros i; simpl List.length; simpl compareBytesTr.
  - constructor.
  - destruct (negb _).
    + simpl. constructor; [lia | constructor].
    + specialize (IH (i + 1)).
      destruct (compareBytesTr buffer signature off (i + 1) rest) as [r reads].
      simpl in *. constructor; [lia |].
      eapply Forall_impl; [| exact IH]. simpl. intros; lia.
Qed.

Lemma signatureMatchesTr_fst signature :
  fst (signatureMatchesTr buffer signature) = signatureMatches buffer signature.
Proof.
  unfold signatureMatchesTr, signatureMatches.
  destruct (_ <? _); [reflexivity | apply compareBytesTr_fst].
Qed.

Lemma signatureMatchesTr_reads signature :
  0 <= signatureOffset signature ->
  Forall (inBounds buffer) (snd (signatureMatchesTr buffer signature)).
Proof.
  intros Hoff. unfold signatureMatchesTr.
  destruct (Z.ltb_spec (jsLength buffer)
              (signatureOffset signature + jsLength (bytes signature)))
    as [Hshort | Hlong]; [constructor |].
  eapply Forall_impl;
    [| apply (compareBytesTr_reads signature (signatureOffset signature)
                (bytes signature) 0)].
  unfold inBounds. simpl. intros; lia.
Qed.

Lemma anySignatureMatchesTr_fst sigs :
  fst (anySignatureMatchesTr buffer sigs) = anySignatureMatches buffer sigs.
Proof.
  induction sigs as [| s rest IH]; simpl; [reflexivity |].
  rewrite <- signatureMatchesTr_fst.
  destruct (signatureMatchesTr buffer s) as [[|] reads]; simpl; [reflexivity |].
  now destruct (anySignatureMatchesTr buffer rest).
Qed.

Lemma anySignatureMatchesTr_reads sigs :
  Forall (fun s => 0 <= signatureOffset s) sigs ->
  Forall (inBounds buffer) (snd (anySignatureMatchesTr buffer sigs)).
Proof.
  induction 1 as [| s rest Hs Hrest IH]; simpl; [constructor |].
  pose proof (signatureMatchesTr_reads s Hs) as Hr.
  destruct (signatureMatchesTr buffer s) as [[|] reads]; simpl in *; [exact Hr |].
  destruct (anySignatureMatchesTr buffer rest) as [r' reads']. simpl in *.
  apply Forall_app. now split.
Qed.

Lemma checkMagicBytesInTr_fst table :
  fst (checkMagicBytesInTr table buffer) = checkMagicBytesIn table buffer.
Proof.
  induction table as [| type rest IH]; simpl; [reflexivity |].
  rewrite <- anySignatureMatchesTr_fst.
  destruct (anySignatureMatchesTr buffer (signatures type)) as [[|] reads];
    simpl; [reflexivity |].
  now destruct (checkMagicBytesInTr rest buffer).
Qed.

Lemma checkMagicBytesInTr_reads table :
  Forall (fun type => Forall (fun s => 0 <= signatureOffset s) (signatures type))
         table ->
  Forall (inBounds buffer) (snd (checkMagicBytesInTr table buffer)).
Proof.
  induction 1 as [| type rest Ht Hrest IH]; simpl; [constructor |].
  pose proof (anySignatureMatchesTr_reads _ Ht) as Hr.
  destruct (anySignatureMatchesTr buffer (signatures type)) as [[|] reads];
    simpl in *; [exact Hr |].
  destruct (checkMagicBytesInTr rest buffer) as [r' reads']. simpl in *.
  apply Forall_app. now split.
Qed.

End Reads.

Lemma magicBytes_offsets_nonneg :
  Forall (fun type => Forall (fun s => 0 <= signatureOffset s) (signatures type))
         magicBytes.
Proof.
  repeat (constructor; [repeat (constructor; [vm_compute; discriminate |]);
                        constructor |]).
  constructor.
Qed.

(** *** A buffer that holds a signature's bytes *)

Lemma holdsSignature_nth buffer signature (k : nat) :
  holdsSignature buffer signature ->
  (k < List.length (bytes signature))%nat ->
  nth_error buffer (Z.to_nat (signatureOffset signature) + k)
  = nth_error (bytes signature) k.
Proof.
  unfold holdsSignature. intros [_ H] Hk.
  rewrite <- H at 1.
  rewrite nth_error_firstn, nth_error_skipn.
  destruct (Nat.ltb_spec k (List.length (bytes signature))); [reflexivity | lia].
Qed.

Lemma holdsSignature_fullyMatches buffer signature :
  0 <= signatureOffset signature ->
  holdsSignature buffer signature ->
  fullyMatches buffer signature.
Proof.
  intros Hoff H. split.
  - exact (proj1 H).
  - intros i [Hi0 Hi1]. unfold positionMatches, jsLength in *.
    assert (exists k : nat, i = Z.of_nat k /\ (k < List.length (bytes signature))%nat)
      as (k & -> & Hk) by (exists (Z.to_nat i); lia).
    replace (signatureOffset signature + Z.of_nat k)
      with (Z.of_nat (Z.to_nat (signatureOffset signature) + k)) by lia.
    rewrite !arrayGet_nat.
    now rewrite (holdsSignature_nth _ _ _ H Hk).
Qed.

Lemma checkMagicBytesIn_skip before type after buffer :
  (forall t, In t before -> anySignatureMatches buffer (signatures t) = false) ->
  checkMagicBytesIn (before ++ type :: after) buffer
  = if anySignatureMatches buffer (signatures type)
    then Some (mimeType type)
    else checkMagicBytesIn after buffer.
Proof.
  induction before as [| t before IH]; intros H; simpl; [reflexivity |].
  rewrite (H t) by now left. apply IH. intros t' Ht'. apply H. now right.
Qed.

Lemma anySignatureMatches_In buffer sigs signature :
  In signature sigs ->
  signatureMatches buffer signature = true ->
  anySignatureMatches buffer sigs = true.
Proof.
  intros Hin Hm. rewrite anySignatureMatches_existsb.
  apply existsb_exists. now exists signature.
Qed.

Lemma checkMagicBytesIn_some_of_match table buffer type signature :
  In type table -> In signature (signatures type) ->
  signatureMatches buffer signature = true ->
  exists m, checkMagicBytesIn table buffer = Some m.
Proof.
  intros Ht Hs Hm. induction table as [| t rest IH]; simpl; [contradiction |].
  destruct (anySignatureMatches buffer (signatures t)) eqn:E; [now eexists |].
  destruct Ht as [-> | Ht]; [| now apply IH].
  rewrite (anySignatureMatches_In _ _ _ Hs Hm) in E. discriminate.
Qed.

Lemma holdsSignature_get buffer signature (k : nat) :
  0 <= signatureOffset signature ->
  holdsSignature buffer signature ->
  (k < List.length (bytes signature))%nat ->
  arrayGet buffer (signatureOffset signature + Z.of_nat k)
  = nth_error (bytes signature) k.
Proof.
  intros Hoff H Hk.
  replace (signatureOffset signature + Z.of_nat k)
    with (Z.of_nat (Z.to_nat (signatureOffset signature) + k)) by lia.
  rewrite arrayGet_nat. now apply holdsSignature_nth.
Qed.

Lemma holdsSignature_matches buffer signature :
  0 <= signatureOffset signature ->
  holdsSignature buffer signature ->
  signatureMatches buffer signature = true.
Proof.
  intros Hoff H. apply signatureMatches_iff.
  now apply holdsSignature_fullyMatches.
Qed.

(** A signature that matches agrees, under its own mask, with any
    signature the buffer holds at the same offset. *)
Lemma match_agrees_with_held buffer s t (k : nat) :
  signatureOffset s = signatureOffset t ->
  0 <= signatureOffset t ->
  holdsSignature buffer t ->
  signatureMatches buffer s = true ->
  (k < List.length (bytes s))%nat ->
  (k < List.length (bytes t))%nat ->
  bitAnd (nth_error (bytes t) k) (maskAt s (Z.of_nat k))
  = bitAnd (nth_error (bytes s) k) (maskAt s (Z.of_nat k)).
Proof.
  intros Hoff Hpos H E Hs Ht.
  apply signatureMatches_iff in E. destruct E as [_ E].
  specialize (E (Z.of_nat k) ltac:(unfold jsLength; lia)).
  unfold positionMatches in E.
  rewrite Hoff, (holdsSignature_get _ _ _ Hpos H Ht), arrayGet_nat in E.
  exact E.
Qed.

(** [E] says that a signature of the table matches while [H] says that
    the buffer holds another signature: refute [E] at a position [k]
    where the two signatures differ. *)
Ltac refute_match_at E H k :=
  match type of E with
  | signatureMatches ?b ?s = true =>
      match type of H with
      | holdsSignature _ ?t =>
          let P := fresh "P" in
          assert (P := match_agrees_with_held b s t k eq_refl
                         ltac:(vm_compute; discriminate) H E
                         ltac:(simpl; lia) ltac:(simpl; lia));
          vm_compute in P; discriminate P
      end
  end.

Ltac refute_match E H :=
  first [ refute_match_at E H 0%nat | refute_match_at E H 1%nat ].

(** Walk down the table: a signature met before the one the buffer
    holds either belongs to the same group or cannot match. *)
Ltac walk_table H :=
  repeat match goal with
  | |- (if (if signatureMatches ?b ?s then true else _) then _ else _) = _ =>
      let E := fresh "E" in
      destruct (signatureMatches b s) eqn:E;
      [ first [ cbv iota; reflexivity | exfalso; refute_match E H ]
      | cbv iota ]
  end.

(** Every buffer that holds a signature of one of the five groups
    declared before [video/mp4] resolves to that group. *)
Lemma holdsSignature_leading_groups type signature buffer :
  In type [pdfDef; jpegDef; pngDef; gifDef; mp3Def] ->
  In signature (signatures type) ->
  holdsSignature buffer signature ->
  checkMagicBytes buffer = Some (mimeType type).
Proof.
  intros Ht Hs H.
  unfold checkMagicBytes, magicBytes.
  simpl in Ht.
  repeat (destruct Ht as [<- | Ht]; [simpl in Hs |]); try contradiction;
    repeat (destruct Hs as [<- | Hs]; [| try contradiction]);
    match type of H with
    | holdsSignature _ ?t =>
        pose proof (holdsSignature_matches buffer t
                      ltac:(vm_compute; discriminate) H) as Hm
    end;
    simpl checkMagicBytesIn; simpl mimeType;
    walk_table H; rewrite Hm in *; discriminate.
Qed.

Lemma anySignatureMatches_false_iff buffer sigs :
  anySignatureMatches buffer sigs = false <->
  forall s, In s sigs -> ~ fullyMatches buffer s.
Proof.
  rewrite anySignatureMatches_existsb. split.
  - intros H s Hs. apply signatureMatches_false_iff.
    destruct (signatureMatches buffer s) eqn:E; [| reflexivity].
    rewrite <- H. symmetry. apply existsb_exists. now exists s.
  - intros H. destruct (existsb _ sigs) eqn:E; [| reflexivity].
    apply existsb_exists in E. destruct E as (s & Hs & Hm).
    apply signatureMatches_iff in Hm. now destruct (H s Hs).
Qed.

Lemma magicBytes_offset_nonneg type signature :
  In type magicBytes -> In signature (signatures type) ->
  0 <= signatureOffset signature.
Proof.
  intros Ht Hs.
  pose proof magicBytes_offsets_nonneg as H.
  rewrite Forall_forall in H. specialize (H type Ht).
  rewrite Forall_forall in H. exact (H signature Hs).
Qed.

(** C1, as amended.  A buffer that holds the bytes of a built-in
    signature at its offset always makes [checkMagicBytes] return a MIME
    type; it is the MIME type of the signature's own group whenever no
    signature of a group declared earlier matches the buffer, and
    unconditionally for the five groups declared before [video/mp4]
    (all anchored at offset 0). *)
Theorem C1_held_signature_resolves :
  forall type signature buffer,
    In type magicBytes ->
    In signature (signatures type) ->
    holdsSignature buffer signature ->
    (exists m, checkMagicBytes buffer = Some m) /\
    (forall before after,
        magicBytes = before ++ type :: after ->
        (forall t s, In t before -> In s (signatures t) ->
                     ~ fullyMatches buffer s) ->
        checkMagicBytes buffer = Some (mimeType type)) /\
    (In type [pdfDef; jpegDef; pngDef; gifDef; mp3Def] ->
     checkMagicBytes buffer = Some (mimeType type)).
Proof.
  intros type signature buffer Ht Hs H.
  assert (Hm : signatureMatches buffer signature = true).
  { apply holdsSignature_matches; [| exact H].
    now apply (magicBytes_offset_nonneg type). }
  repeat split.
  - now apply (checkMagicBytesIn_some_of_match magicBytes buffer type signature).
  - intros before after Heq Hbefore. unfold checkMagicBytes. rewrite Heq.
    rewrite checkMagicBytesIn_skip.
    + now rewrite (anySignatureMatches_In _ _ _ Hs Hm).
    + intros t Hin. apply anySignatureMatches_false_iff.
      intros s Hin'. now apply (Hbefore t).
  - intros Hlead. now apply (holdsSignature_leading_groups type signature).
Qed.

(** C1 at the [ftyp] signature of [video/mp4], on a buffer whose first
    four bytes are zero. *)
Lemma C1_held_signature_resolves_witness :
  checkMagicBytes [0; 0; 0; 0; 0x66; 0x74; 0x79; 0x70] = Some "video/mp4".
Proof.
  refine (proj1 (proj2 (C1_held_signature_resolves mp4Def
            (sigAt [0x66; 0x74; 0x79; 0x70] 4)
            [0; 0; 0; 0; 0x66; 0x74; 0x79; 0x70] _ _ _))
            [pdfDef; jpegDef; pngDef; gifDef; mp3Def] [webmDef] eq_refl _).
  - simpl; tauto.
  - simpl; tauto.
  - split; [vm_compute; discriminate | reflexivity].
  - intros t s Ht Hs. apply signatureMatches_false_iff.
    simpl in Ht.
    repeat (destruct Ht as [<- | Ht]; [simpl in Hs |]); try contradiction;
      repeat (destruct Hs as [<- | Hs]; [reflexivity |]); contradiction.
Defined.

(** C1 as stated fails: this buffer holds [ftyp] at offset 4, a
    signature of [video/mp4], and starts with [%PDF]; the group declared
    first wins. *)
Lemma C1_counterexample :
  ~ (forall type signature buffer,
        In type magicBytes ->
        In signature (signatures type) ->
        holdsSignature buffer signature ->
        checkMagicBytes buffer = Some (mimeType type)).
Proof.
  intros H.
  specialize (H mp4Def (sigAt [0x66; 0x74; 0x79; 0x70] 4)
                [0x25; 0x50; 0x44; 0x46; 0x66; 0x74; 0x79; 0x70]).
  assert (E : checkMagicBytes [0x25; 0x50; 0x44; 0x46; 0x66; 0x74; 0x79; 0x70]
              = Some (mimeType mp4Def)).
  { apply H.
    - simpl; tauto.
    - simpl; tauto.
    - split; [vm_compute; discriminate | reflexivity]. }
  vm_compute in E. discriminate E.
Qed.

(** C2.  A signature whose end lies beyond the buffer does not match,
    and its iteration reads no byte of the buffer; every index read
    while matching a signature with a non-negative offset, and every
    index [checkMagicBytes] reads on any buffer, lies inside the buffer.
    The recording matcher computes what [checkMagicBytes] computes. *)
Theorem C2_short_buffer_never_matches :
  forall (buffer : Buffer) (signature : MagicByte),
    (jsLength buffer < signatureOffset signature + jsLength (bytes signature) ->
       signatureMatches buffer signature = false /\
       signatureMatchesTr buffer signature = (false, [])) /\
    (0 <= signatureOffset signature ->
       Forall (inBounds buffer) (snd (signatureMatchesTr buffer signature))) /\
    Forall (inBounds buffer) (snd (checkMagicBytesTr buffer)) /\
    fst (checkMagicBytesTr buffer) = checkMagicBytes buffer.
Proof.
  intros buffer signature. repeat split.
  - unfold signatureMatches.
    destruct (Z.ltb_spec (jsLength buffer)
                (signatureOffset signature + jsLength (bytes signature)));
      [reflexivity | lia].
  - unfold signatureMatchesTr.
    destruct (Z.ltb_spec (jsLength buffer)
                (signatureOffset signature + jsLength (bytes signature)));
      [reflexivity | lia].
  - apply signatureMatchesTr_reads.
  - apply checkMagicBytesInTr_reads, magicBytes_offsets_nonneg.
  - apply checkMagicBytesInTr_fst.
Qed.

(** C2 on an eleven-byte buffer and the [mp42] signature, which ends
    at index 12. *)
Lemma C2_short_buffer_never_matches_witness :
  signatureMatches [0; 0; 0; 0; 0; 0; 0; 0; 0x6d; 0x70; 0x34]
                   (sigAt [0x6d; 0x70; 0x34; 0x32] 8) = false /\
  signatureMatchesTr [0; 0; 0; 0; 0; 0; 0; 0; 0x6d; 0x70; 0x34]
                     (sigAt [0x6d; 0x70; 0x34; 0x32] 8) = (false, []).
Proof.
  apply (proj1 (C2_short_buffer_never_matches
                  [0; 0; 0; 0; 0; 0; 0; 0; 0x6d; 0x70; 0x34]
                  (sigAt [0x6d; 0x70; 0x34; 0x32] 8))).
  vm_compute. reflexivity.
Defined.

(** C6.  With enough bytes in the buffer, a signature matches exactly
    when every position [i] satisfies
    [(buffer[offset+i] & mask[i]) == (bytes[i] & mask[i])], the mask
    being [0xff] throughout when the signature has none; and the
    matcher returns the MIME type paired with the first fully matching
    signature in group-then-signature declaration order, [null] when
    there is none. *)
Theorem C6_match_decision :
  forall (table : list MagicByteDefinition) (buffer : Buffer),
    (forall signature,
        sufficientLength buffer signature ->
        (signatureMatches buffer signature = true <->
         forall i, 0 <= i < jsLength (bytes signature) ->
                   positionMatches buffer signature i)) /\
    (forall signature i, mask signature = None -> maskAt signature i = Some 0xff) /\
    (forall m,
        checkMagicBytesIn table buffer = Some m <->
        exists before signature after,
          declarationOrder table = before ++ (m, signature) :: after /\
          fullyMatches buffer signature /\
          forall entry, In entry before -> ~ fullyMatches buffer (snd entry)) /\
    (checkMagicBytesIn table buffer = None <->
     forall entry, In entry (declarationOrder table) ->
                   ~ fullyMatches buffer (snd entry)).
Proof.
  intros table buffer. repeat split.
  - intros Hm. now apply signatureMatches_iff.
  - intros Hall. apply signatureMatches_iff. now split.
  - intros signature i Hmask. unfold maskAt. now rewrite Hmask.
  - rewrite checkMagicBytesIn_find.
    destruct (find _ (declarationOrder table)) as [[m' s] |] eqn:F;
      simpl; [| discriminate].
    intros [= <-]. apply find_first_split in F.
    destruct F as (before & after & Heq & Hm & Hb).
    exists before, s, after.
    split; [exact Heq |]. split; [now apply signatureMatches_iff |].
    intros entry Hin. apply signatureMatches_false_iff. now apply Hb.
  - intros (before & s & after & Heq & Hm & Hb).
    rewrite checkMagicBytesIn_find.
    assert (F : find (fun entry : string * MagicByte =>
                        signatureMatches buffer (snd entry))
                     (declarationOrder table) = Some (m, s)).
    { apply find_first_split. exists before, after.
      split; [exact Heq |]. split; [now apply signatureMatches_iff |].
      intros y Hy. apply signatureMatches_false_iff. now apply Hb. }
    now rewrite F.
  - rewrite checkMagicBytesIn_find.
    destruct (find _ (declarationOrder table)) eqn:F; [discriminate |].
    intros _ entry Hin. apply signatureMatches_false_iff.
    revert entry Hin. now apply find_none_iff.
  - intros H. rewrite checkMagicBytesIn_find.
    replace (find _ (declarationOrder table)) with (@None (string * MagicByte));
      [reflexivity |].
    symmetry. apply find_none_iff. intros entry Hin.
    apply signatureMatches_false_iff. now apply H.
Qed.

(** C6 at the [ftyp] signature on an eight-byte buffer. *)
Lemma C6_match_decision_witness :
  signatureMatches [0; 0; 0; 0; 0x66; 0x74; 0x79; 0x70]
                   (sigAt [0x66; 0x74; 0x79; 0x70] 4) = true <->
  forall i, 0 <= i < 4 ->
            positionMatches [0; 0; 0; 0; 0x66; 0x74; 0x79; 0x70]
                            (sigAt [0x66; 0x74; 0x79; 0x70] 4) i.
Proof.
  apply (proj1 (C6_match_decision magicBytes
                  [0; 0; 0; 0; 0x66; 0x74; 0x79; 0x70])
               (sigAt [0x66; 0x74; 0x79; 0x70] 4)).
  vm_compute. discriminate.
Defined.

(** ** The resolver *)

Lemma checkMagicBytesIn_mimeType table buffer m :
  checkMagicBytesIn table buffer = Some m -> In m (map mimeType table).
Proof.
  induction table as [| type rest IH]; simpl; [discriminate |].
  destruct (anySignatureMatches buffer (signatures type)).
  - intros [= <-]. now left.
  - intros H. right. now apply IH.
Qed.

Lemma checkMagicBytes_truthy buffer m :
  checkMagicBytes buffer = Some m -> truthy (JsString m) = true.
Proof.
  intros H. apply checkMagicBytesIn_mimeType in H. simpl in H.
  repeat (destruct H as [<- | H]; [reflexivity |]). contradiction.
Qed.

(** C5.  When the bytes were acquired and the matcher returns a MIME
    type, [getMimeType] resolves to that MIME type, whatever the
    extension table holds: the table plays no part in the result. *)
Theorem C5_signature_overrides_extension :
  forall (table : StringObject) (w : World) (filePathOrUrl : string)
         (buffer : Buffer) (m : string),
    acquire w filePathOrUrl = Some buffer ->
    checkMagicBytes buffer = Some m ->
    getMimeTypeIn table w filePathOrUrl = JsString m /\
    getMimeType w filePathOrUrl = JsString m.
Proof.
  intros table w d buffer m Hacq Hm.
  unfold getMimeType, getMimeTypeIn. rewrite Hacq, Hm.
  now rewrite (checkMagicBytes_truthy buffer m Hm).
Qed.

(** C5 on the file [a.txt] that starts with [FF D8 FF E0]. *)
Lemma C5_signature_overrides_extension_witness :
  getMimeTypeIn mimeTypes exampleWorld "a.txt" = JsString "image/jpeg" /\
  getMimeType exampleWorld "a.txt" = JsString "image/jpeg".
Proof.
  apply (C5_signature_overrides_extension mimeTypes exampleWorld "a.txt"
           [0xff; 0xd8; 0xff; 0xe0; 0x00; 0x10; 0x4a; 0x46; 0x49; 0x46; 0x00; 0x01]
           "image/jpeg").
  - reflexivity.
  - reflexivity.
Defined.

(** *** The extension fallback and inherited properties *)

(** Off the inherited names the fallback is a non-empty string: the
    table's entry when it has a non-empty one for the extension, the
    default otherwise. *)
Lemma extensionFallback_off_prototype table filePathOrUrl :
  inheritedName (derivedExtension filePathOrUrl) = false ->
  extensionFallback table filePathOrUrl
  = match assoc (derivedExtension filePathOrUrl) table with
    | Some v => if (v =? "")%string then JsString "application/octet-stream"
                else JsString v
    | None => JsString "application/octet-stream"
    end.
Proof.
  unfold inheritedName, extensionFallback, getProperty, jsOr.
  destruct (assoc (derivedExtension filePathOrUrl) table) as [v |].
  - intros _. simpl. now destruct (v =? "")%string.
  - destruct (assoc (derivedExtension filePathOrUrl) objectPrototype);
      [discriminate | reflexivity].
Qed.

Lemma assoc_In {A} key (entries : list (string * A)) v :
  assoc key entries = Some v -> In (key, v) entries.
Proof.
  induction entries as [| [k x] rest IH]; simpl; [discriminate |].
  destruct (String.eqb_spec k key) as [-> | _].
  - intros [= ->]. now left.
  - intros H. right. now apply IH.
Qed.

Lemma mimeTypes_values_nonempty key v :
  assoc key mimeTypes = Some v -> (v =? "")%string = false.
Proof.
  intros H. apply assoc_In in H. simpl in H.
  repeat (destruct H as [[= <- <-] | H]; [reflexivity |]). contradiction.
Qed.

(** X1.  When the derived extension is not the name of a property
    inherited from [Object.prototype], [getMimeType] resolves to a
    non-empty string; and when the acquisition failed or no signature
    matched, to the table's entry for the extension, or to
    ["application/octet-stream"] when the table has none. *)
Lemma getMimeType_off_prototype w filePathOrUrl :
  inheritedName (derivedExtension filePathOrUrl) = false ->
  (exists m, getMimeType w filePathOrUrl = JsString m /\ m <> "") /\
  ((acquire w filePathOrUrl = None \/
    exists buffer, acquire w filePathOrUrl = Some buffer /\
                   checkMagicBytes buffer = None) ->
   getMimeType w filePathOrUrl
   = match assoc (derivedExtension filePathOrUrl) mimeTypes with
     | Some v => JsString v
     | None => JsString "application/octet-stream"
     end).
Proof.
  intros Hoff.
  pose proof (extensionFallback_off_prototype mimeTypes _ Hoff) as Hfb.
  assert (Hfb' : extensionFallback mimeTypes filePathOrUrl
                 = match assoc (derivedExtension filePathOrUrl) mimeTypes with
                   | Some v => JsString v
                   | None => JsString "application/octet-stream"
                   end).
  { rewrite Hfb.
    destruct (assoc (derivedExtension filePathOrUrl) mimeTypes) as [v |] eqn:E;
      [| reflexivity].
    now rewrite (mimeTypes_values_nonempty _ _ E). }
  assert (Hne : exists m, extensionFallback mimeTypes filePathOrUrl = JsString m
                          /\ m <> "").
  { rewrite Hfb'.
    destruct (assoc (derivedExtension filePathOrUrl) mimeTypes) as [v |] eqn:E.
    - exists v. split; [reflexivity |].
      apply String.eqb_neq. exact (mimeTypes_values_nonempty _ _ E).
    - eexists. split; [reflexivity | discriminate]. }
  split.
  - unfold getMimeType, getMimeTypeIn.
    destruct (acquire w filePathOrUrl) as [buffer |]; [| exact Hne].
    destruct (checkMagicBytes buffer) as [m |] eqn:Em; [| exact Hne].
    pose proof (checkMagicBytes_truthy _ _ Em) as Ht. rewrite Ht.
    exists m. split; [reflexivity |].
    simpl in Ht. apply String.eqb_neq. now destruct (m =? "")%string.
  - unfold getMimeType, getMimeTypeIn.
    intros [-> | (buffer & -> & ->)]; exact Hfb'.
Qed.

(** X1 on the readable file [notes.xyz], which matches no signature. *)
Lemma getMimeType_off_prototype_witness :
  getMimeType exampleWorld "notes.xyz" = JsString "application/octet-stream".
Proof.
  refine (proj2 (getMimeType_off_prototype exampleWorld "notes.xyz" eq_refl) _).
  right. exists [0x68; 0x65; 0x6c; 0x6c; 0x6f; 0; 0; 0; 0; 0; 0; 0].
  split; reflexivity.
Defined.

(** C3 at a readable file that matches no signature and whose extension
    is no key of the table: the resolved value is the inherited
    [Object] function, not a string, so the predicates built on
    [getMimeType] throw. *)
Lemma C3_inherited_property_resolved :
  acquire exampleWorld "notes.constructor"
    = Some [0x68; 0x65; 0x6c; 0x6c; 0x6f; 0; 0; 0; 0; 0; 0; 0] /\
  checkMagicBytes [0x68; 0x65; 0x6c; 0x6c; 0x6f; 0; 0; 0; 0; 0; 0; 0] = None /\
  derivedExtension "notes.constructor" = "constructor" /\
  assoc "constructor" mimeTypes = None /\
  getMimeType exampleWorld "notes.constructor" = JsFunction "Object" /\
  isDocument exampleWorld "notes.constructor" = None.
Proof. repeat split. Qed.

(** C4 at a missing file whose extension is no key of the table: the
    resolved value is the inherited [Object] function, not
    ["application/octet-stream"]. *)
Lemma C4_inherited_property_on_failure :
  acquire exampleWorld "x.constructor" = None /\
  derivedExtension "x.constructor" = "constructor" /\
  assoc "constructor" mimeTypes = None /\
  getMimeType exampleWorld "x.constructor" = JsFunction "Object" /\
  getMimeType exampleWorld "x.__proto__" = JsObjectPrototype.
Proof. repeat split. Qed.

(** *** Reading a local file *)

Lemma skipn_repeat_zero (n k : nat) :
  skipn k (repeat 0 n) = repeat 0 (n - k).
Proof.
  revert k. induction n as [| n IH]; intros [| k]; simpl; try reflexivity.
  apply IH.
Qed.

Lemma readSyncInto_alloc (content : list Z) :
  readSyncInto content (bufferAlloc 12) 0 12 0
  = firstn 12 content ++ repeat 0 (12 - Nat.min 12 (List.length content)).
Proof.
  unfold readSyncInto, bufferAlloc.
  rewrite repeat_length. change (Nat.min 12 (12 - 0)) with 12%nat.
  change (skipn 0 content) with content.
  change (firstn 0 (repeat 0 12)) with (@nil Z).
  rewrite app_nil_l, Nat.add_0_l, skipn_repeat_zero.
  now rewrite length_firstn.
Qed.

(** C8, as amended.  For a local path whose file can be read, the
    acquisition yields a buffer of exactly 12 bytes: the file's first
    12 bytes, or, when the file is shorter, all of its bytes followed
    by zero bytes up to length 12.  A short read does not throw. *)
Theorem C8_local_read_is_zero_padded :
  forall (w : World) (filePathOrUrl : string) (content : list Z),
    isUrl filePathOrUrl = false ->
    fsFile w filePathOrUrl = FileBytes content ->
    exists buffer,
      acquire w filePathOrUrl = Some buffer /\
      List.length buffer = 12%nat /\
      buffer = firstn 12 content
               ++ repeat 0 (12 - Nat.min 12 (List.length content)) /\
      ((12 <= List.length content)%nat -> buffer = firstn 12 content).
Proof.
  intros w d content Hlocal Hfile.
  exists (readSyncInto content (bufferAlloc 12) 0 12 0).
  unfold acquire. rewrite Hlocal, Hfile, readSyncInto_alloc.
  repeat split.
  - rewrite length_app, length_firstn, repeat_length. lia.
  - intros Hlen. replace (12 - Nat.min 12 (List.length content))%nat with 0%nat by lia.
    apply app_nil_r.
Qed.

(** C8 on the three-byte file [short.mp3]. *)
Lemma C8_local_read_is_zero_padded_witness :
  exists buffer,
    acquire exampleWorld "short.mp3" = Some buffer /\
    List.length buffer = 12%nat /\
    buffer = firstn 12 id3Only
             ++ repeat 0 (12 - Nat.min 12 (List.length id3Only)) /\
    ((12 <= List.length id3Only)%nat -> buffer = firstn 12 id3Only).
Proof.
  apply (C8_local_read_is_zero_padded exampleWorld "short.mp3" id3Only).
  - reflexivity.
  - reflexivity.
Defined.

(** C8 as stated fails: reading the three-byte file [short.mp3] yields
    a buffer of length 12, not the three bytes of the file. *)
Lemma C8_counterexample :
  ~ (forall (w : World) (filePathOrUrl : string) (content : list Z),
        isUrl filePathOrUrl = false ->
        fsFile w filePathOrUrl = FileBytes content ->
        exists buffer,
          acquire w filePathOrUrl = Some buffer /\
          buffer = firstn 12 content /\
          List.length buffer = Nat.min 12 (List.length content)).
Proof.
  intros H.
  destruct (H exampleWorld "short.mp3" id3Only eq_refl eq_refl)
    as (buffer & Hacq & Hbuf & _).
  vm_compute in Hacq. rewrite Hbuf in Hacq. vm_compute in Hacq.
  discriminate Hacq.
Qed.

(** ** The category tests *)

Lemma prefix_cons_inv a p m :
  prefix (String a p) m = true ->
  exists m', m = String a m' /\ prefix p m' = true.
Proof.
  destruct m as [| c m']; simpl; [discriminate |].
  destruct (ascii_dec a c) as [<- | _]; [| discriminate].
  intros H. now exists m'.
Qed.

(** Two prefixes that differ within their first two characters are not
    both prefixes of one string. *)
Ltac clash H1 H2 :=
  apply prefix_cons_inv in H1; destruct H1 as (? & -> & H1);
  apply prefix_cons_inv in H2; destruct H2 as (? & [= <-] & H2);
  try (apply prefix_cons_inv in H1; destruct H1 as (? & -> & H1);
       apply prefix_cons_inv in H2; destruct H2 as (? & [= <-] & H2)).

Lemma document_excludes m :
  documentTest m = true ->
  imageTest m = false /\ audioTest m = false /\ videoTest m = false.
Proof.
  unfold documentTest, imageTest, audioTest, videoTest, startsWith.
  intros H. apply orb_true_iff in H. destruct H as [H | H].
  - repeat split.
    + destruct (prefix "image/" m) eqn:E; [| reflexivity]. exfalso. clash H E.
    + destruct (prefix "audio/" m) eqn:E; [| reflexivity]. exfalso. clash H E.
    + destruct (prefix "video/" m) eqn:E; [| reflexivity]. exfalso. clash H E.
  - apply String.eqb_eq in H. subst m. repeat split.
Qed.

Lemma image_excludes m :
  imageTest m = true -> audioTest m = false /\ videoTest m = false.
Proof.
  unfold imageTest, audioTest, videoTest, startsWith. intros H. split.
  - destruct (prefix "audio/" m) eqn:E; [| reflexivity]. exfalso. clash H E.
  - destruct (prefix "video/" m) eqn:E; [| reflexivity]. exfalso. clash H E.
Qed.

Lemma audio_excludes m :
  audioTest m = true -> videoTest m = false.
Proof.
  unfold audioTest, videoTest, startsWith. intros H.
  destruct (prefix "video/" m) eqn:E; [| reflexivity]. exfalso. clash H E.
Qed.

Lemma tests_at_most_one m :
  (countTrue [documentTest m; imageTest m; audioTest m; videoTest m] <= 1)%nat.
Proof.
  pose proof (document_excludes m) as Hd.
  pose proof (image_excludes m) as Hi.
  pose proof (audio_excludes m) as Ha.
  unfold countTrue.
  destruct (documentTest m).
  - destruct (Hd eq_refl) as (-> & -> & ->). simpl. lia.
  - destruct (imageTest m).
    + destruct (Hi eq_refl) as (-> & ->). simpl. lia.
    + destruct (audioTest m).
      * rewrite (Ha eq_refl). simpl. lia.
      * destruct (videoTest m); simpl; lia.
Qed.

(** C10.  On one resolved MIME type string at most one of the four
    category tests holds: no string starts with two of the prefixes
    [application/], [image/], [audio/], [video/], and [text/plain]
    starts with none of the last three.  Hence for one resolution
    result at most one of [isDocument], [isImage], [isAudio] and
    [isVideo] is [true]. *)
Theorem C10_categories_mutually_exclusive :
  forall m : string,
    (countTrue [documentTest m; imageTest m; audioTest m; videoTest m] <= 1)%nat /\
    startsWith m "application/" && startsWith m "image/" = false /\
    startsWith m "application/" && startsWith m "audio/" = false /\
    startsWith m "application/" && startsWith m "video/" = false /\
    startsWith m "image/" && startsWith m "audio/" = false /\
    startsWith m "image/" && startsWith m "video/" = false /\
    startsWith m "audio/" && startsWith m "video/" = false /\
    (imageTest "text/plain" = false /\ audioTest "text/plain" = false /\
     videoTest "text/plain" = false) /\
    (forall (w : World) (filePathOrUrl : string),
        getMimeType w filePathOrUrl = JsString m ->
        isDocument w filePathOrUrl = Some (documentTest m) /\
        isImage w filePathOrUrl = Some (imageTest m) /\
        isAudio w filePathOrUrl = Some (audioTest m) /\
        isVideo w filePathOrUrl = Some (videoTest m) /\
        (countTrue [holds (isDocument w filePathOrUrl);
                    holds (isImage w filePathOrUrl);
                    holds (isAudio w filePathOrUrl);
                    holds (isVideo w filePathOrUrl)] <= 1)%nat).
Proof.
  intros m.
  pose proof (document_excludes m) as Hd.
  pose proof (image_excludes m) as Hi.
  pose proof (audio_excludes m) as Ha.
  unfold documentTest, imageTest, audioTest, videoTest in Hd, Hi, Ha.
  split; [apply tests_at_most_one |].
  split.
  { destruct (startsWith m "application/"); [| reflexivity].
    now destruct (Hd eq_refl) as (-> & _). }
  split.
  { destruct (startsWith m "application/"); [| reflexivity].
    now destruct (Hd eq_refl) as (_ & -> & _). }
  split.
  { destruct (startsWith m "application/"); [| reflexivity].
    now destruct (Hd eq_refl) as (_ & _ & ->). }
  split.
  { destruct (startsWith m "image/"); [| reflexivity].
    now destruct (Hi eq_refl) as (-> & _). }
  split.
  { destruct (startsWith m "image/"); [| reflexivity].
    now destruct (Hi eq_refl) as (_ & ->). }
  split.
  { destruct (startsWith m "audio/"); [| reflexivity]. now rewrite (Ha eq_refl). }
  split; [repeat split |].
  intros w d Hres. unfold isDocument, isImage, isAudio, isVideo.
  rewrite Hres. simpl onString. repeat (split; [reflexivity |]).
  pose proof (tests_at_most_one m) as H.
  unfold holds, countTrue in *.
  destruct (documentTest m), (imageTest m), (audioTest m), (videoTest m);
    simpl in *; lia.
Qed.

(** C10 on the resolution of [a.txt], a JPEG file. *)
Lemma C10_categories_mutually_exclusive_witness :
  isDocument exampleWorld "a.txt" = Some (documentTest "image/jpeg") /\
  isImage exampleWorld "a.txt" = Some (imageTest "image/jpeg") /\
  isAudio exampleWorld "a.txt" = Some (audioTest "image/jpeg") /\
  isVideo exampleWorld "a.txt" = Some (videoTest "image/jpeg") /\
  (countTrue [holds (isDocument exampleWorld "a.txt");
              holds (isImage exampleWorld "a.txt");
              holds (isAudio exampleWorld "a.txt");
              holds (isVideo exampleWorld "a.txt")] <= 1)%nat.
Proof.
  refine (proj2 (proj2 (proj2 (proj2 (proj2 (proj2 (proj2 (proj2
            (C10_categories_mutually_exclusive "image/jpeg"))))))))
            exampleWorld "a.txt" _).
  reflexivity.
Defined.

(** ** [getMimeExtension] *)

Lemma mimeTypes_values_lowercase :
  Forall (fun entry => toLowerCase (snd entry) = snd entry) mimeTypes.
Proof. repeat constructor. Qed.

Lemma getMimeExtensionIn_first_match table x ext :
  getMimeExtensionIn table x = Some ext <->
  exists before e v after,
    table = before ++ (e, v) :: after /\
    ext = ("." ++ e)%string /\
    toLowerCase v = toLowerCase x /\
    forall entry, In entry before -> toLowerCase (snd entry) <> toLowerCase x.
Proof.
  unfold getMimeExtensionIn, objectEntries. split.
  - destruct (find _ table) as [[e v] |] eqn:F; [| discriminate].
    intros [= <-]. apply find_first_split in F.
    destruct F as (before & after & Heq & Hv & Hb).
    exists before, e, v, after. simpl in Hv.
    split; [exact Heq |]. split; [reflexivity |].
    split; [now apply String.eqb_eq |].
    intros entry Hin. apply String.eqb_neq. now apply Hb.
  - intros (before & e & v & after & Heq & -> & Hv & Hb).
    assert (F : find (fun entry : string * string =>
                        (toLowerCase (snd entry) =? toLowerCase x)%string) table
                = Some (e, v)).
    { apply find_first_split. exists before, after.
      split; [exact Heq |]. split; [now apply String.eqb_eq |].
      intros y Hy. apply String.eqb_neq. now apply Hb. }
    now rewrite F.
Qed.

Lemma getMimeExtensionIn_none table x :
  (forall e v, In (e, v) table -> toLowerCase v <> toLowerCase x) ->
  getMimeExtensionIn table x = None.
Proof.
  intros H. unfold getMimeExtensionIn, objectEntries.
  replace (find _ table) with (@None (string * string)); [reflexivity |].
  symmetry. apply find_none_iff. intros [e v] Hin.
  apply String.eqb_neq. now apply (H e v).
Qed.

(** C9.  For every entry [e -> m] of the extension table,
    [getMimeExtension m] returns an extension with a leading dot whose
    table entry maps back to [m]; the extension returned for any input
    is that of the first entry in declaration order whose value equals
    the lower-cased input; [getMimeExtension "image/jpeg"] is [".jpg"];
    and an input whose lower-cased form is the value of no entry yields
    none. *)
Theorem C9_getMimeExtension_round_trip :
  (forall e m, In (e, m) mimeTypes ->
     exists e', getMimeExtension m = Some ("." ++ e')%string /\
                assoc e' mimeTypes = Some m) /\
  (forall x ext,
     getMimeExtension x = Some ext <->
     exists before e v after,
       mimeTypes = before ++ (e, v) :: after /\
       ext = ("." ++ e)%string /\
       v = toLowerCase x /\
       forall entry, In entry before -> snd entry <> toLowerCase x) /\
  getMimeExtension "image/jpeg" = Some ".jpg" /\
  getMimeExtension "image/jpeg" <> Some ".jpeg" /\
  (forall x, (forall e v, In (e, v) mimeTypes -> v <> toLowerCase x) ->
             getMimeExtension x = None) /\
  getMimeExtension "application/unknown" = None.
Proof.
  pose proof mimeTypes_values_lowercase as Hlow.
  rewrite Forall_forall in Hlow.
  split.
  { intros e m Hin. simpl in Hin.
    repeat (destruct Hin as [[= <- <-] | Hin];
            [eexists; split; reflexivity |]).
    contradiction. }
  split.
  { intros x ext. unfold getMimeExtension.
    rewrite getMimeExtensionIn_first_match. split.
    - intros (before & e & v & after & Heq & -> & Hv & Hb).
      exists before, e, v, after.
      split; [exact Heq |]. split; [reflexivity |]. split.
      + rewrite <- Hv. symmetry. apply (Hlow (e, v)).
        rewrite Heq. apply in_elt.
      + intros entry Hin. rewrite <- (Hlow entry); [now apply Hb |].
        rewrite Heq. apply in_or_app. now left.
    - intros (before & e & v & after & Heq & -> & Hv & Hb).
      exists before, e, v, after.
      split; [exact Heq |]. split; [reflexivity |]. split.
      + rewrite <- Hv. apply (Hlow (e, v)). rewrite Heq. apply in_elt.
      + intros entry Hin. rewrite (Hlow entry); [now apply Hb |].
        rewrite Heq. apply in_or_app. now left. }
  split; [reflexivity |].
  split; [discriminate |].
  split; [| reflexivity].
  intros x H. apply getMimeExtensionIn_none. intros e v Hin.
  pose proof (Hlow (e, v) Hin) as L. simpl in L. rewrite L.
  now apply (H e v).
Qed.

(** ** [path.extname] and the derived extension *)

Lemma scan_slashes (k : nat) (l : list ascii) (st : ExtnameState) :
  matchedSlash st = true ->
  extnameScan (repeat "/"%char k ++ l) st = extnameScan l st.
Proof.
  intros Hm. induction k as [| k IH]; simpl; [reflexivity |].
  now rewrite Hm.
Qed.

Lemma scan_plain_ended (run l : list ascii) (e : Z) :
  forallb plainChar run = true -> e <> -1 ->
  extnameScan (run ++ l) (ended e) = extnameScan l (ended e).
Proof.
  intros Hrun He. induction run as [| c run IH]; [reflexivity |].
  simpl in Hrun. apply andb_true_iff in Hrun. destruct Hrun as [Hc Hrun].
  unfold plainChar in Hc. apply andb_true_iff in Hc. destruct Hc as [Hs Hd].
  apply negb_true_iff in Hs, Hd.
  simpl. rewrite Hs, Hd.
  destruct (Z.eqb_spec e (-1)) as [| _]; [contradiction |].
  simpl. now apply IH.
Qed.

Lemma scan_plain_init (c : ascii) (run l : list ascii) :
  forallb plainChar (c :: run) = true ->
  extnameScan (c :: run ++ l) extnameInit
  = extnameScan l (ended (len (c :: run ++ l))).
Proof.
  intros Hrun.
  simpl in Hrun. apply andb_true_iff in Hrun. destruct Hrun as [Hc Hrun].
  unfold plainChar in Hc. apply andb_true_iff in Hc. destruct Hc as [Hs Hd].
  apply negb_true_iff in Hs, Hd.
  simpl extnameScan. rewrite Hs, Hd. simpl.
  replace (Z.of_nat (List.length (run ++ l)) + 1) with (len (c :: run ++ l))
    by (unfold len; simpl List.length; lia).
  apply scan_plain_ended; [exact Hrun |].
  unfold len. lia.
Qed.

Lemma scan_dot_ended (l : list ascii) (e : Z) :
  e <> -1 ->
  extnameScan ("."%char :: l) (ended e) = extnameScan l (dotted (len l) e).
Proof.
  intros He. simpl.
  destruct (Z.eqb_spec e (-1)) as [| _]; [contradiction |].
  reflexivity.
Qed.

Lemma scan_dot_init (l : list ascii) :
  extnameScan ("."%char :: l) extnameInit
  = extnameScan l (dotted (len l) (len l + 1)).
Proof. reflexivity. Qed.

(** From the start of the last segment's extension to its dot. *)
Lemma scan_to_dot (ext l : list ascii) :
  forallb plainChar ext = true ->
  extnameScan (rev ext ++ "."%char :: l) extnameInit
  = extnameScan l (dotted (len l) (len l + 1 + len ext)).
Proof.
  intros Hext.
  assert (Hrev : forallb plainChar (rev ext) = true).
  { apply forallb_forall. intros x Hx. apply in_rev in Hx.
    revert x Hx. now apply forallb_forall. }
  assert (Hlen : len (rev ext) = len ext) by (unfold len; now rewrite length_rev).
  destruct (rev ext) as [| c run] eqn:E.
  - simpl app. rewrite scan_dot_init.
    rewrite <- Hlen. unfold len at 3. simpl. now rewrite Z.add_0_r.
  - change ((c :: run) ++ "."%char :: l) with (c :: run ++ "."%char :: l).
    rewrite scan_plain_init by exact Hrev.
    rewrite scan_dot_ended by (unfold len; lia).
    f_equal. f_equal. rewrite <- Hlen. unfold len.
    simpl List.length. rewrite length_app. simpl List.length. lia.
Qed.

(** Once the dot is found and a character before it has been seen, the
    rest of the scan keeps the dot, the end and a non-zero
    [preDotState]. *)
Lemma scan_rest_invariant (l : list ascii) :
  forall st,
    startDot st <> -1 -> endIdx st <> -1 -> matchedSlash st = false ->
    preDotState st <> 0 ->
    startDot (extnameScan l st) = startDot st /\
    endIdx (extnameScan l st) = endIdx st /\
    preDotState (extnameScan l st) <> 0.
Proof.
  induction l as [| c l IH]; intros st Hsd He Hm Hp; [now simpl |].
  simpl. rewrite Hm. simpl negb. cbv iota.
  destruct (c =? "/")%char; [now simpl |].
  destruct (Z.eqb_spec (endIdx st) (-1)) as [| _]; [contradiction |].
  destruct (Z.eqb_spec (startDot st) (-1)) as [| _]; [contradiction |].
  simpl negb. cbv iota.
  destruct (c =? ".")%char.
  - destruct (Z.eqb_spec (preDotState st) 1) as [H1 | H1]; simpl negb; cbv iota.
    + now apply IH.
    + match goal with
      | |- context [extnameScan l ?s] =>
          destruct (IH s) as (A & B & C); simpl; try assumption; try lia
      end.
      now simpl in A, B.
  - match goal with
    | |- context [extnameScan l ?s] =>
        destruct (IH s) as (A & B & C); simpl; try assumption; try lia
    end.
    now simpl in A, B.
Qed.

(** The three ways the scan of a path can end, by the shape of the last
    segment; the lists are the path read backwards. *)

Lemma scan_before_dot (c : ascii) (l : list ascii) (sd e : Z) :
  (c =? "/")%char = false -> sd <> -1 -> e <> -1 ->
  extnameScan (c :: l) (dotted sd e)
  = extnameScan l {| startDot := sd; startPart := 0; endIdx := e;
                     matchedSlash := false;
                     preDotState := if (c =? ".")%char then 1 else -1 |}.
Proof.
  intros Hc Hsd He. simpl. rewrite Hc.
  destruct (Z.eqb_spec e (-1)) as [| _]; [contradiction |].
  simpl. destruct (Z.eqb_spec sd (-1)) as [| _]; [contradiction |].
  now destruct (c =? ".")%char.
Qed.

Lemma scan_with_stem (k : nat) (ext before : list ascii) (c : ascii) :
  (c =? "/")%char = false ->
  forallb plainChar ext = true ->
  let st := extnameScan (repeat "/"%char k ++ rev ext ++ "."%char :: c :: before)
                        extnameInit in
  startDot st = len (c :: before) /\
  endIdx st = len (c :: before) + 1 + len ext /\
  preDotState st <> 0.
Proof.
  intros Hc Hext. cbv zeta.
  rewrite scan_slashes by reflexivity.
  rewrite scan_to_dot by exact Hext.
  rewrite scan_before_dot by (try exact Hc; unfold len; lia).
  match goal with
  | |- context [extnameScan before ?s] =>
      destruct (scan_rest_invariant before s) as (A & B & C)
  end.
  - cbn [startDot]. unfold len. lia.
  - cbn [endIdx]. unfold len. lia.
  - reflexivity.
  - cbn [preDotState]. now destruct (c =? ".")%char.
  - cbn [startDot endIdx] in A, B. rewrite A, B. now repeat split.
Qed.

Lemma scan_no_dot (k : nat) (base rest : list ascii) :
  forallb plainChar base = true ->
  rest = [] \/ (base <> [] /\ exists rest', rest = "/"%char :: rest') ->
  startDot (extnameScan (repeat "/"%char k ++ rev base ++ rest) extnameInit) = -1.
Proof.
  intros Hbase Hrest.
  rewrite scan_slashes by reflexivity.
  assert (Hrev : forallb plainChar (rev base) = true).
  { apply forallb_forall. intros x Hx. apply in_rev in Hx.
    revert x Hx. now apply forallb_forall. }
  destruct (rev base) as [| c run] eqn:E.
  - destruct Hrest as [-> | (Hne & _)]; [reflexivity |].
    exfalso. apply Hne. apply (f_equal (@rev ascii)) in E.
    now rewrite rev_involutive in E.
  - change ((c :: run) ++ rest) with (c :: run ++ rest).
    rewrite scan_plain_init by exact Hrev.
    destruct Hrest as [-> | (_ & rest' & ->)]; reflexivity.
Qed.

Lemma scan_leading_dot (k : nat) (ext rest : list ascii) :
  forallb plainChar ext = true ->
  rest = [] \/ (exists rest', rest = "/"%char :: rest') ->
  preDotState (extnameScan (repeat "/"%char k ++ rev ext ++ "."%char :: rest)
                           extnameInit) = 0.
Proof.
  intros Hext Hrest.
  rewrite scan_slashes by reflexivity.
  rewrite scan_to_dot by exact Hext.
  destruct Hrest as [-> | (rest' & ->)]; reflexivity.
Qed.

(** *** Strings as lists of characters *)

Lemma list_of_append (a b : string) :
  list_ascii_of_string (a ++ b)
  = list_ascii_of_string a ++ list_ascii_of_string b.
Proof. induction a as [| c a IH]; simpl; [reflexivity | now rewrite IH]. Qed.

Lemma list_of_slashes (k : nat) :
  list_ascii_of_string (slashes k) = repeat "/"%char k.
Proof. induction k as [| k IH]; simpl; [reflexivity | now rewrite IH]. Qed.

Lemma substring_list (s : string) :
  forall n m,
    substring n m s
    = string_of_list_ascii (firstn m (skipn n (list_ascii_of_string s))).
Proof.
  induction s as [| c s IH]; intros [| n] [| m]; simpl; try reflexivity.
  - now rewrite IH.
  - now rewrite IH.
  - now rewrite IH.
Qed.

Lemma middle_of_list {A} (x m y : list A) :
  firstn (List.length m) (skipn (List.length x) (x ++ m ++ y)) = m.
Proof.
  rewrite skipn_app, skipn_all, Nat.sub_diag. simpl.
  rewrite firstn_app, firstn_all, Nat.sub_diag. simpl.
  apply app_nil_r.
Qed.

Lemma string_last (s : string) :
  s <> "" -> exists s' c, s = (s' ++ String c "")%string.
Proof.
  induction s as [| a s IH]; [congruence |]. intros _.
  destruct s as [| b s].
  - now exists "", a.
  - destruct IH as (s' & c & E); [discriminate |].
    exists (String a s'), c. simpl. now rewrite <- E.
Qed.

Lemma hasChar_append c a b :
  hasChar c (a ++ b) = hasChar c a || hasChar c b.
Proof. unfold hasChar. now rewrite list_of_append, existsb_app. Qed.

Lemma plain_of_hasChar (s : string) :
  hasChar "/" s = false -> hasChar "." s = false ->
  forallb plainChar (list_ascii_of_string s) = true.
Proof.
  unfold hasChar, plainChar.
  induction (list_ascii_of_string s) as [| c l IH]; simpl; [reflexivity |].
  intros H1 H2. apply orb_false_iff in H1, H2.
  destruct H1 as [-> H1], H2 as [-> H2]. simpl. now apply IH.
Qed.

(** *** The derived extension, by the shape of the path *)

Lemma extname_empty_of_no_dot (path : string) :
  startDot (extnameScan (rev (list_ascii_of_string path)) extnameInit) = -1 ->
  extname path = "".
Proof. intros H. unfold extname. now rewrite H. Qed.

Lemma extname_empty_of_leading_dot (path : string) :
  preDotState (extnameScan (rev (list_ascii_of_string path)) extnameInit) = 0 ->
  extname path = "".
Proof.
  intros H. unfold extname. rewrite H.
  change (0 =? 0) with true. now rewrite orb_true_r.
Qed.

Lemma derivedExtension_no_dot (d : string) (x base : list ascii) (k : nat) :
  list_ascii_of_string d = x ++ base ++ repeat "/"%char k ->
  forallb plainChar base = true ->
  x = [] \/ (base <> [] /\ exists x', x = x' ++ ["/"%char]) ->
  derivedExtension d = "".
Proof.
  intros Hd Hbase Hx. unfold derivedExtension.
  rewrite extname_empty_of_no_dot; [reflexivity |].
  rewrite Hd, !rev_app_distr, rev_repeat, <- app_assoc.
  apply scan_no_dot; [exact Hbase |].
  destruct Hx as [-> | (Hne & x' & ->)]; [now left | right].
  split; [exact Hne |]. rewrite rev_app_distr. simpl. now eexists.
Qed.

Lemma derivedExtension_leading_dot (d : string) (x ext : list ascii) (k : nat) :
  list_ascii_of_string d = x ++ "."%char :: ext ++ repeat "/"%char k ->
  forallb plainChar ext = true ->
  x = [] \/ (exists x', x = x' ++ ["/"%char]) ->
  derivedExtension d = "".
Proof.
  intros Hd Hext Hx. unfold derivedExtension.
  rewrite extname_empty_of_leading_dot; [reflexivity |].
  assert (Hrev : rev (list_ascii_of_string d)
                 = repeat "/"%char k ++ rev ext ++ "."%char :: rev x).
  { rewrite Hd, rev_app_distr. simpl rev.
    rewrite rev_app_distr, rev_repeat, <- !app_assoc. reflexivity. }
  rewrite Hrev. apply scan_leading_dot; [exact Hext |].
  destruct Hx as [-> | (x' & ->)]; [now left | right].
  rewrite rev_app_distr. simpl. now eexists.
Qed.

Lemma derivedExtension_with_stem (d : string) (x ext : list ascii)
    (c : ascii) (k : nat) :
  list_ascii_of_string d = x ++ c :: "."%char :: ext ++ repeat "/"%char k ->
  (c =? "/")%char = false ->
  forallb plainChar ext = true ->
  derivedExtension d = toLowerCase (string_of_list_ascii ext).
Proof.
  intros Hd Hc Hext.
  assert (Hrev : rev (list_ascii_of_string d)
                 = repeat "/"%char k ++ rev ext ++ "."%char :: c :: rev x).
  { rewrite Hd, rev_app_distr. simpl rev.
    rewrite rev_app_distr, rev_repeat, <- !app_assoc. reflexivity. }
  destruct (scan_with_stem k ext (rev x) c Hc Hext) as (Hsd & He & Hp).
  rewrite <- Hrev in Hsd, He, Hp.
  assert (Hlen : len (c :: rev x) = Z.of_nat (List.length (x ++ [c]))).
  { unfold len. simpl List.length. rewrite length_rev, length_app. simpl. lia. }
  unfold derivedExtension, extname.
  set (st := extnameScan (rev (list_ascii_of_string d)) extnameInit) in *.
  destruct ((startDot st =? -1) || (endIdx st =? -1) || (preDotState st =? 0)
            || ((preDotState st =? 1) && (startDot st =? endIdx st - 1)
                && (startDot st =? startPart st + 1))) eqn:Cond.
  - (* only the ".." exit is possible, and then the extension is empty *)
    apply orb_true_iff in Cond. destruct Cond as [Cond | Cond].
    + apply orb_true_iff in Cond. destruct Cond as [Cond | Cond].
      * apply orb_true_iff in Cond. destruct Cond as [Cond | Cond];
          apply Z.eqb_eq in Cond; unfold len in *; lia.
      * apply Z.eqb_eq in Cond. contradiction.
    + apply andb_true_iff in Cond. destruct Cond as [Cond _].
      apply andb_true_iff in Cond. destruct Cond as [_ Cond].
      apply Z.eqb_eq in Cond.
      assert (ext = []) as ->.
      { destruct ext; [reflexivity |]. unfold len in *. simpl List.length in *. lia. }
      reflexivity.
  - unfold slice. rewrite substring_list, Hsd, He, Hlen.
    replace (Z.to_nat (Z.of_nat (List.length (x ++ [c]))))
      with (List.length (x ++ [c])) by lia.
    replace (Z.to_nat (Z.of_nat (List.length (x ++ [c])) + 1 + len ext
                       - Z.of_nat (List.length (x ++ [c]))))
      with (List.length ("."%char :: ext)) by (unfold len; simpl List.length; lia).
    replace (list_ascii_of_string d)
      with ((x ++ [c]) ++ ("."%char :: ext) ++ repeat "/"%char k)
      by (rewrite Hd, <- app_assoc; reflexivity).
    rewrite middle_of_list. reflexivity.
Qed.

Lemma append_slash_nonempty (s : string) : (s ++ "/")%string <> "".
Proof. now destruct s. Qed.

Lemma list_of_nonempty (s : string) : s <> "" -> list_ascii_of_string s <> [].
Proof. now destruct s. Qed.

(** C7, as amended.  The extension used for the fallback lookup is
    taken by [path.extname] from the last path segment of the
    descriptor (the text after the last ['/'], trailing ['/'] characters
    ignored): it is the text after the last ['.'] of that segment,
    lower-cased and without the dot, and it is empty when the segment
    holds no ['.'] or when its only ['.'] is its first character.  A
    query string or fragment is not stripped:
    ["https://x.com/file.jpg?x=1"] derives ["jpg?x=1"]. *)
Theorem C7_extension_of_last_segment :
  forall d base : string,
    lastSegment d base ->
    (hasChar "." base = false -> derivedExtension d = "") /\
    (forall e, base = ("." ++ e)%string -> hasChar "." e = false ->
               derivedExtension d = "") /\
    (forall stem e,
        stem <> "" -> base = (stem ++ "." ++ e)%string ->
        hasChar "." e = false ->
        derivedExtension d = toLowerCase e) /\
    derivedExtension "https://x.com/file.jpg?x=1" = "jpg?x=1".
Proof.
  intros d base (Hslash & dir & k & Hd & Hdir & Hbase).
  assert (HL : list_ascii_of_string d
               = list_ascii_of_string dir ++ list_ascii_of_string base
                 ++ repeat "/"%char k).
  { now rewrite Hd, !list_of_append, list_of_slashes. }
  assert (Hx : list_ascii_of_string dir = [] \/
               (base <> "" /\
                exists x', list_ascii_of_string dir = x' ++ ["/"%char])).
  { destruct Hdir as [-> | (dir' & ->)]; [now left | right]. split.
    - intros E. apply (append_slash_nonempty dir'). now apply Hbase.
    - exists (list_ascii_of_string dir'). now rewrite list_of_append. }
  split; [| split; [| split; [| reflexivity]]].
  - intros Hdot.
    apply (derivedExtension_no_dot d _ _ k HL).
    + now apply plain_of_hasChar.
    + destruct Hx as [Hx | (Hne & Hx)]; [now left | right].
      split; [now apply list_of_nonempty | exact Hx].
  - intros e -> Hdot.
    rewrite hasChar_append in Hslash. apply orb_false_iff in Hslash.
    destruct Hslash as [_ Hslash].
    apply (derivedExtension_leading_dot d (list_ascii_of_string dir)
             (list_ascii_of_string e) k).
    + rewrite HL, list_of_append. reflexivity.
    + now apply plain_of_hasChar.
    + destruct Hx as [Hx | (_ & Hx)]; [now left | now right].
  - intros stem e Hstem -> Hdot.
    destruct (string_last stem Hstem) as (stem' & c & ->).
    rewrite !hasChar_append in Hslash.
    apply orb_false_iff in Hslash. destruct Hslash as [Hs1 Hs2].
    apply orb_false_iff in Hs1. destruct Hs1 as [_ Hc].
    apply orb_false_iff in Hs2. destruct Hs2 as [_ He].
    unfold hasChar in Hc. simpl in Hc. rewrite orb_false_r in Hc.
    rewrite <- (string_of_list_ascii_of_string e) at 1.
    apply (derivedExtension_with_stem d
             (list_ascii_of_string dir ++ list_ascii_of_string stem')
             (list_ascii_of_string e) c k).
    + rewrite HL, !list_of_append, <- !app_assoc. reflexivity.
    + exact Hc.
    + now apply plain_of_hasChar.
Qed.

(** C7 on a URL with a query string. *)
Lemma C7_extension_of_last_segment_witness :
  derivedExtension "https://x.com/file.jpg?x=1" = toLowerCase "jpg?x=1".
Proof.
  refine (proj1 (proj2 (proj2
            (C7_extension_of_last_segment "https://x.com/file.jpg?x=1"
               "file.jpg?x=1" _))) "file" "jpg?x=1" _ eq_refl eq_refl).
  - split; [reflexivity |].
    exists "https://x.com/", 0%nat. split; [reflexivity |].
    split; [right; now exists "https://x.com" | discriminate].
  - discriminate.
Defined.

(** C7 as stated fails: [".pdf"] contains a ['.'] followed by ["pdf"],
    yet the derived extension is empty. *)
Lemma C7_counterexample :
  ~ (forall d : string,
        (forall before e, d = (before ++ "." ++ e)%string ->
                          hasChar "." e = false ->
                          derivedExtension d = toLowerCase e) /\
        (hasChar "." d = false -> derivedExtension d = "")).
Proof.
  intros H.
  destruct (H ".pdf") as [H1 _].
  specialize (H1 "" "pdf" eq_refl eq_refl).
  vm_compute in H1. discriminate H1.
Qed.

(** *** Every descriptor has a last segment, of one of three shapes *)

Lemma string_append_assoc (a b c : string) :
  ((a ++ b) ++ c = a ++ b ++ c)%string.
Proof. induction a as [| x a IH]; simpl; [reflexivity | now rewrite IH]. Qed.

Lemma hasChar_cons c x s :
  hasChar c (String x s) = (x =? c)%char || hasChar c s.
Proof. reflexivity. Qed.

Lemma string_split_last (c : ascii) (s : string) :
  hasChar c s = false \/
  exists before after,
    s = (before ++ String c after)%string /\ hasChar c after = false.
Proof.
  induction s as [| x s IH]; [now left |].
  destruct IH as [IH | (before & after & -> & Hafter)].
  - rewrite hasChar_cons. destruct (Ascii.eqb_spec x c) as [-> | _].
    + right. now exists "", s.
    + now left.
  - right. now exists (String x before), after.
Qed.

Lemma strip_trailing_slashes (s : string) :
  exists t k,
    s = (t ++ slashes k)%string /\
    (t = "" \/ exists t' c, t = (t' ++ String c "")%string /\ c <> "/"%char).
Proof.
  induction s as [| x s IH]; [now exists "", 0%nat; split; [| left] |].
  destruct IH as (t & k & -> & [-> | (t' & c & -> & Hc)]).
  - destruct (Ascii.eqb_spec x "/") as [-> | Hx].
    + exists "", (S k). split; [reflexivity | now left].
    + exists (String x ""), k. split; [reflexivity | right].
      now exists "", x.
  - exists (String x (t' ++ String c "")), k. split; [reflexivity | right].
    now exists (String x t'), c.
Qed.

Lemma last_char_unique (a b : string) (x y : ascii) :
  (a ++ String x "")%string = (b ++ String y "")%string -> x = y.
Proof.
  intros H. apply (f_equal list_ascii_of_string) in H.
  rewrite !list_of_append in H. simpl in H.
  now apply app_inj_tail in H.
Qed.

(** X3.  Every descriptor has a last segment. *)
Lemma lastSegment_exists (d : string) : exists base, lastSegment d base.
Proof.
  destruct (strip_trailing_slashes d) as (t & k & -> & [-> | (t' & c & -> & Hc)]).
  - exists "". split; [reflexivity |]. exists "", k.
    split; [reflexivity |]. split; [now left | reflexivity].
  - destruct (string_split_last "/" (t' ++ String c ""))
      as [Hno | (before & after & Heq & Hafter)].
    + exists (t' ++ String c "")%string. split; [exact Hno |].
      exists "", k. split; [reflexivity |]. split; [now left | reflexivity].
    + exists after. split; [exact Hafter |].
      exists (before ++ "/")%string, k. split; [| split].
      * rewrite Heq, !string_append_assoc. reflexivity.
      * right. now exists before.
      * intros ->. exfalso. apply Hc. symmetry.
        now apply (last_char_unique before t').
Qed.

Lemma segment_shape (base : string) :
  hasChar "." base = false \/
  (exists e, base = ("." ++ e)%string /\ hasChar "." e = false) \/
  (exists stem e, stem <> "" /\ base = (stem ++ "." ++ e)%string /\
                  hasChar "." e = false).
Proof.
  destruct (string_split_last "." base) as [H | (before & after & -> & H)];
    [now left | right].
  destruct before as [| x before].
  - left. now exists after.
  - right. exists (String x before), after. now repeat split.
Qed.

(** ** Zero padding of a short read does not change the detection *)

Lemma arrayGet_padded_inside (l : list Z) (n : nat) (p : Z) :
  0 <= p < jsLength l ->
  arrayGet (l ++ repeat 0 n) p = arrayGet l p.
Proof.
  unfold jsLength, arrayGet. intros Hp.
  destruct (Z.ltb_spec p 0); [lia |].
  apply nth_error_app1. lia.
Qed.

Lemma arrayGet_padded_outside (l : list Z) (n : nat) (p : Z) :
  jsLength l <= p < jsLength (l ++ repeat 0 n) ->
  arrayGet (l ++ repeat 0 n) p = Some 0.
Proof.
  unfold jsLength, arrayGet. rewrite length_app, repeat_length. intros Hp.
  destruct (Z.ltb_spec p 0); [lia |].
  rewrite nth_error_app2 by lia. apply nth_error_repeat. lia.
Qed.

Lemma fullyMatches_padded (l : list Z) (n : nat) (signature : MagicByte) :
  paddingProof signature ->
  fullyMatches (l ++ repeat 0 n) signature <-> fullyMatches l signature.
Proof.
  intros (Hmask & Hoff & Hne & Hnz).
  assert (Hlen : jsLength (l ++ repeat 0 n) = jsLength l + Z.of_nat n).
  { unfold jsLength. rewrite length_app, repeat_length. lia. }
  unfold fullyMatches, sufficientLength, positionMatches. split.
  - intros [Hsuff Hpos].
    assert (Hin : signatureOffset signature + jsLength (bytes signature)
                  <= jsLength l).
    { destruct (Z.le_gt_cases
                  (signatureOffset signature + jsLength (bytes signature))
                  (jsLength l)) as [Hle | Hgt]; [exact Hle | exfalso].
      set (i := Z.max 0 (jsLength l - signatureOffset signature)).
      assert (Hi : 0 <= i < jsLength (bytes signature)).
      { unfold i, jsLength in *.
        destruct (bytes signature); [congruence |]. simpl List.length in *. lia. }
      specialize (Hpos i Hi).
      rewrite arrayGet_padded_outside in Hpos by (unfold i, jsLength in *; lia).
      destruct (arrayGet_inBounds (bytes signature) i Hi) as (b & Hb).
      rewrite Hb in Hpos. unfold maskAt in Hpos. rewrite Hmask in Hpos.
      rewrite Forall_forall in Hnz. apply (Hnz b).
      - unfold arrayGet in Hb. destruct (i <? 0); [discriminate |].
        now apply nth_error_In in Hb.
      - rewrite <- Hpos. reflexivity. }
    split; [exact Hin |].
    intros i Hi. rewrite <- (Hpos i Hi).
    now rewrite arrayGet_padded_inside by lia.
  - intros [Hsuff Hpos]. split; [lia |].
    intros i Hi. rewrite <- (Hpos i Hi).
    now rewrite arrayGet_padded_inside by lia.
Qed.

Lemma signatureMatches_padded (l : list Z) (n : nat) (signature : MagicByte) :
  paddingProof signature ->
  signatureMatches (l ++ repeat 0 n) signature = signatureMatches l signature.
Proof.
  intros H. pose proof (fullyMatches_padded l n signature H) as Hiff.
  rewrite <- !signatureMatches_iff in Hiff.
  destruct (signatureMatches (l ++ repeat 0 n) signature),
           (signatureMatches l signature); try reflexivity.
  - symmetry. now apply Hiff.
  - now apply Hiff.
Qed.

Lemma checkMagicBytesIn_padded table (l : list Z) (n : nat) :
  Forall (fun type => Forall paddingProof (signatures type)) table ->
  checkMagicBytesIn table (l ++ repeat 0 n) = checkMagicBytesIn table l.
Proof.
  induction 1 as [| type rest Ht Hrest IH]; simpl; [reflexivity |].
  assert (Hany : anySignatureMatches (l ++ repeat 0 n) (signatures type)
                 = anySignatureMatches l (signatures type)).
  { induction Ht as [| s sigs Hs Hsigs IHs]; simpl; [reflexivity |].
    now rewrite IHs, signatureMatches_padded. }
  now rewrite Hany, IH.
Qed.

Lemma magicBytes_paddingProof :
  Forall (fun type => Forall paddingProof (signatures type)) magicBytes.
Proof.
  repeat (constructor;
          [repeat (constructor;
                   [repeat split;
                    [vm_compute; discriminate | discriminate
                    | repeat (constructor; [vm_compute; discriminate |]);
                      constructor ] |]);
           constructor |]).
  constructor.
Qed.

(** X2.  What [getMimeType] feeds to the matcher for a readable local
    file is detected exactly as the file's first 12 bytes, without the
    zero padding, would be. *)
Lemma checkMagicBytes_local_read (content : list Z) :
  checkMagicBytes (readSyncInto content (bufferAlloc 12) 0 12 0)
  = checkMagicBytes (firstn 12 content).
Proof.
  rewrite readSyncInto_alloc. unfold checkMagicBytes.
  apply checkMagicBytesIn_padded, magicBytes_paddingProof.
Qed.

(* ================================================================== *)
(** * Part III. Properties beyond the claims *)
(* ================================================================== *)

(** ** The matcher looks at the first twelve bytes only *)

Lemma arrayGet_firstn (n : nat) (l : list Z) (p : Z) :
  p < Z.of_nat n -> arrayGet (firstn n l) p = arrayGet l p.
Proof.
  unfold arrayGet. intros Hp.
  destruct (Z.ltb_spec p 0); [reflexivity |].
  rewrite nth_error_firstn.
  destruct (Nat.ltb_spec (Z.to_nat p) n); [reflexivity | lia].
Qed.

Lemma fullyMatches_firstn (n : nat) (buffer : Buffer) (signature : MagicByte) :
  endsWithin (Z.of_nat n) signature ->
  fullyMatches (firstn n buffer) signature <-> fullyMatches buffer signature.
Proof.
  intros [Hoff Hend].
  assert (Hlen : jsLength (firstn n buffer) = Z.min (Z.of_nat n) (jsLength buffer)).
  { unfold jsLength. rewrite length_firstn. lia. }
  unfold fullyMatches, sufficientLength, positionMatches. rewrite Hlen.
  split; intros [Hsuff Hpos]; (split; [lia |]); intros i Hi;
    specialize (Hpos i Hi);
    rewrite arrayGet_firstn in * by lia; exact Hpos.
Qed.

Lemma signatureMatches_firstn (n : nat) (buffer : Buffer) (signature : MagicByte) :
  endsWithin (Z.of_nat n) signature ->
  signatureMatches (firstn n buffer) signature = signatureMatches buffer signature.
Proof.
  intros H. pose proof (fullyMatches_firstn n buffer signature H) as Hiff.
  rewrite <- !signatureMatches_iff in Hiff.
  destruct (signatureMatches (firstn n buffer) signature),
           (signatureMatches buffer signature); try reflexivity.
  - symmetry. now apply Hiff.
  - now apply Hiff.
Qed.

Lemma checkMagicBytesIn_firstn table (n : nat) (buffer : Buffer) :
  Forall (fun type => Forall (endsWithin (Z.of_nat n)) (signatures type)) table ->
  checkMagicBytesIn table (firstn n buffer) = checkMagicBytesIn table buffer.
Proof.
  induction 1 as [| type rest Ht Hrest IH]; simpl; [reflexivity |].
  assert (Hany : anySignatureMatches (firstn n buffer) (signatures type)
                 = anySignatureMatches buffer (signatures type)).
  { induction Ht as [| s sigs Hs Hsigs IHs]; simpl; [reflexivity |].
    now rewrite IHs, signatureMatches_firstn. }
  now rewrite Hany, IH.
Qed.

Lemma magicBytes_endWithin_twelve :
  Forall (fun type => Forall (endsWithin 12) (signatures type)) magicBytes.
Proof.
  repeat (constructor;
          [repeat (constructor;
                   [split; vm_compute; discriminate |]);
           constructor |]).
  constructor.
Qed.

Section ReadsBelow.

Variable buffer : Buffer.
Variable n : Z.

Lemma signatureMatchesTr_below signature :
  endsWithin n signature ->
  Forall (fun r => 0 <= r < n) (snd (signatureMatchesTr buffer signature)).
Proof.
  intros [Hoff Hend]. unfold signatureMatchesTr.
  destruct (_ <? _); [constructor |].
  eapply Forall_impl;
    [| apply (compareBytesTr_reads buffer signature (signatureOffset signature)
                (bytes signature) 0)].
  simpl. intros; lia.
Qed.

Lemma anySignatureMatchesTr_below sigs :
  Forall (endsWithin n) sigs ->
  Forall (fun r => 0 <= r < n) (snd (anySignatureMatchesTr buffer sigs)).
Proof.
  induction 1 as [| s rest Hs Hrest IH]; simpl; [constructor |].
  pose proof (signatureMatchesTr_below s Hs) as Hr.
  destruct (signatureMatchesTr buffer s) as [[|] reads]; simpl in *; [exact Hr |].
  destruct (anySignatureMatchesTr buffer rest) as [r' reads']. simpl in *.
  apply Forall_app. now split.
Qed.

Lemma checkMagicBytesInTr_below table :
  Forall (fun type => Forall (endsWithin n) (signatures type)) table ->
  Forall (fun r => 0 <= r < n) (snd (checkMagicBytesInTr table buffer)).
Proof.
  induction 1 as [| type rest Ht Hrest IH]; simpl; [constructor |].
  pose proof (anySignatureMatchesTr_below _ Ht) as Hr.
  destruct (anySignatureMatchesTr buffer (signatures type)) as [[|] reads];
    simpl in *; [exact Hr |].
  destruct (checkMagicBytesInTr rest buffer) as [r' reads']. simpl in *.
  apply Forall_app. now split.
Qed.

End ReadsBelow.

(** X4.  The result of [checkMagicBytes] is determined by the first
    twelve bytes of the buffer, and no index from 12 on is ever read,
    however long the buffer is. *)
Theorem checkMagicBytes_first_twelve :
  forall buffer : Buffer,
    checkMagicBytes (firstn 12 buffer) = checkMagicBytes buffer /\
    Forall (fun r => 0 <= r < 12) (snd (checkMagicBytesTr buffer)).
Proof.
  intros buffer. split.
  - apply (checkMagicBytesIn_firstn magicBytes 12), magicBytes_endWithin_twelve.
  - apply checkMagicBytesInTr_below, magicBytes_endWithin_twelve.
Qed.

Lemma checkMagicBytes_of_local_buffer (content : list Z) :
  checkMagicBytes (readSyncInto content (bufferAlloc 12) 0 12 0)
  = checkMagicBytes content.
Proof.
  rewrite readSyncInto_alloc. unfold checkMagicBytes.
  rewrite checkMagicBytesIn_padded by apply magicBytes_paddingProof.
  apply (checkMagicBytesIn_firstn magicBytes 12), magicBytes_endWithin_twelve.
Qed.

(** X5.  For a readable local file [getMimeType] resolves as if the
    matcher had been given the whole content of the file: to the MIME
    type the matcher finds in the content, and otherwise to the
    extension fallback.  Reading 12 bytes into a zero-filled buffer
    loses nothing and adds nothing. *)
Theorem getMimeType_local_file :
  forall (w : World) (filePathOrUrl : string) (content : list Z),
    isUrl filePathOrUrl = false ->
    fsFile w filePathOrUrl = FileBytes content ->
    getMimeType w filePathOrUrl
    = match checkMagicBytes content with
      | Some m => JsString m
      | None => extensionFallback mimeTypes filePathOrUrl
      end.
Proof.
  intros w d content Hlocal Hfile.
  unfold getMimeType, getMimeTypeIn, acquire. rewrite Hlocal, Hfile.
  rewrite checkMagicBytes_of_local_buffer.
  destruct (checkMagicBytes content) as [m |] eqn:E; [| reflexivity].
  now rewrite (checkMagicBytes_truthy _ _ E).
Qed.

(** X5 on the JPEG file [a.txt], whose content is longer than 12 bytes. *)
Lemma getMimeType_local_file_witness :
  getMimeType exampleWorld "a.txt"
  = match checkMagicBytes jpegHead with
    | Some m => JsString m
    | None => extensionFallback mimeTypes "a.txt"
    end.
Proof.
  apply (getMimeType_local_file exampleWorld "a.txt" jpegHead).
  - reflexivity.
  - reflexivity.
Defined.

(** ** Buffers too short for any signature *)

Lemma signatureMatches_too_short (n : Z) (buffer : Buffer) (signature : MagicByte) :
  needsAtLeast n signature -> jsLength buffer < n ->
  signatureMatches buffer signature = false.
Proof.
  unfold needsAtLeast, signatureMatches. intros Hn Hlen.
  destruct (Z.ltb_spec (jsLength buffer)
              (signatureOffset signature + jsLength (bytes signature)));
    [reflexivity | lia].
Qed.

Lemma checkMagicBytesIn_too_short table (n : Z) (buffer : Buffer) :
  Forall (fun type => Forall (needsAtLeast n) (signatures type)) table ->
  jsLength buffer < n ->
  checkMagicBytesIn table buffer = None.
Proof.
  intros Htable Hlen.
  induction Htable as [| type rest Ht Hrest IH]; simpl; [reflexivity |].
  replace (anySignatureMatches buffer (signatures type)) with false; [exact IH |].
  symmetry. induction Ht as [| s sigs Hs Hsigs IHs]; simpl; [reflexivity |].
  now rewrite (signatureMatches_too_short n).
Qed.

Lemma magicBytes_need_two :
  Forall (fun type => Forall (needsAtLeast 2) (signatures type)) magicBytes.
Proof.
  repeat (constructor;
          [repeat (constructor; [vm_compute; discriminate |]); constructor |]).
  constructor.
Qed.

(** X6.  A buffer of fewer than two bytes, the empty buffer included,
    matches no signature; hence a local file holding fewer than two
    bytes, and a URL whose body has fewer than two bytes, resolve by
    the extension fallback alone. *)
Theorem short_content_resolves_by_extension :
  (forall buffer : Buffer,
      (List.length buffer < 2)%nat -> checkMagicBytes buffer = None) /\
  (forall (w : World) (filePathOrUrl : string) (content : list Z),
      (List.length content < 2)%nat ->
      (isUrl filePathOrUrl = false /\ fsFile w filePathOrUrl = FileBytes content) \/
      (isUrl filePathOrUrl = true /\ httpBody w filePathOrUrl = Some content) ->
      getMimeType w filePathOrUrl = extensionFallback mimeTypes filePathOrUrl).
Proof.
  assert (Hshort : forall buffer : Buffer,
             (List.length buffer < 2)%nat -> checkMagicBytes buffer = None).
  { intros buffer Hlen.
    apply (checkMagicBytesIn_too_short magicBytes 2);
      [apply magicBytes_need_two | unfold jsLength; lia]. }
  split; [exact Hshort |].
  intros w d content Hlen [[Hlocal Hfile] | [Hurl Hbody]].
  - unfold getMimeType, getMimeTypeIn, acquire. rewrite Hlocal, Hfile.
    rewrite checkMagicBytes_of_local_buffer. now rewrite (Hshort content Hlen).
  - unfold getMimeType, getMimeTypeIn, acquire, getBufferFromUrl.
    rewrite Hurl, Hbody. now rewrite (Hshort content Hlen).
Qed.

(** X6 on a one-byte buffer. *)
Lemma short_content_resolves_by_extension_witness :
  checkMagicBytes [0xff] = None.
Proof.
  apply (proj1 short_content_resolves_by_extension [0xff]).
  simpl. lia.
Defined.

(** ** A reported type is really in the buffer *)

Lemma ToInt32_byte (b : Z) : 0 <= b <= 255 -> ToInt32 b = b.
Proof.
  intros Hb. unfold ToInt32. rewrite (Z.mod_small b) by lia.
  destruct (Z.leb_spec (2 ^ 31) b); [lia | reflexivity].
Qed.

Lemma bitAnd_byte (b : Z) :
  0 <= b <= 255 -> bitAnd (Some b) (Some 0xff) = b.
Proof.
  intros Hb. unfold bitAnd, toInt32.
  rewrite (ToInt32_byte b Hb), (ToInt32_byte 255) by lia.
  change 255 with (Z.ones 8).
  rewrite Z.land_ones by lia. apply Z.mod_small. lia.
Qed.

Lemma fullyMatches_holdsSignature (buffer : Buffer) (signature : MagicByte) :
  byteBuffer buffer -> plainSignature signature ->
  fullyMatches buffer signature -> holdsSignature buffer signature.
Proof.
  intros Hbuf (Hmask & Hoff & Hbytes) [Hsuff Hpos].
  split; [exact Hsuff |].
  unfold sufficientLength, jsLength in Hsuff.
  unfold byteBuffer in Hbuf. rewrite Forall_forall in Hbuf, Hbytes.
  apply nth_error_ext. intros k.
  rewrite nth_error_firstn, nth_error_skipn.
  destruct (Nat.ltb_spec k (List.length (bytes signature))) as [Hk | Hk].
  - specialize (Hpos (Z.of_nat k) ltac:(unfold jsLength; lia)).
    unfold positionMatches, maskAt in Hpos. rewrite Hmask in Hpos.
    replace (signatureOffset signature + Z.of_nat k)
      with (Z.of_nat (Z.to_nat (signatureOffset signature) + k)) in Hpos by lia.
    rewrite !arrayGet_nat in Hpos.
    destruct (nth_error buffer (Z.to_nat (signatureOffset signature) + k))
      as [b |] eqn:Eb.
    2:{ apply nth_error_None in Eb. lia. }
    destruct (nth_error (bytes signature) k) as [sb |] eqn:Es.
    2:{ apply nth_error_None in Es. lia. }
    rewrite !bitAnd_byte in Hpos.
    + now subst.
    + apply Hbytes. eapply nth_error_In. exact Es.
    + apply Hbuf. eapply nth_error_In. exact Eb.
  - symmetry. apply nth_error_None. lia.
Qed.

Lemma checkMagicBytesIn_some_inv table buffer m :
  checkMagicBytesIn table buffer = Some m ->
  exists type signature,
    In type table /\ mimeType type = m /\
    In signature (signatures type) /\
    signatureMatches buffer signature = true.
Proof.
  induction table as [| type rest IH]; simpl; [discriminate |].
  destruct (anySignatureMatches buffer (signatures type)) eqn:E.
  - intros [= <-]. rewrite anySignatureMatches_existsb in E.
    apply existsb_exists in E. destruct E as (s & Hs & Hm).
    exists type, s. repeat split; [now left | exact Hs | exact Hm].
  - intros H. destruct (IH H) as (type' & s & Ht & Hmime & Hs & Hm).
    exists type', s. repeat split; [now right | exact Hmime | exact Hs | exact Hm].
Qed.

Lemma magicBytes_plain :
  Forall (fun type => Forall plainSignature (signatures type)) magicBytes.
Proof.
  repeat (constructor;
          [repeat (constructor;
                   [split; [reflexivity |];
                    split; [vm_compute; discriminate |];
                    repeat (constructor; [lia |]); constructor |]);
           constructor |]).
  constructor.
Qed.

(** X7.  No false positive: when [checkMagicBytes] returns a MIME type
    for a buffer of bytes, the buffer holds, at the listed offset, the
    exact bytes of one of the signatures listed for that MIME type. *)
Theorem checkMagicBytes_sound :
  forall (buffer : Buffer) (m : string),
    byteBuffer buffer ->
    checkMagicBytes buffer = Some m ->
    exists type signature,
      In type magicBytes /\ mimeType type = m /\
      In signature (signatures type) /\
      holdsSignature buffer signature.
Proof.
  intros buffer m Hbuf H.
  destruct (checkMagicBytesIn_some_inv _ _ _ H) as (type & s & Ht & Hmime & Hs & Hm).
  exists type, s. repeat split; try assumption.
  - apply signatureMatches_iff in Hm. exact (proj1 Hm).
  - pose proof magicBytes_plain as Hplain.
    rewrite Forall_forall in Hplain. specialize (Hplain type Ht).
    rewrite Forall_forall in Hplain.
    apply (fullyMatches_holdsSignature buffer s Hbuf (Hplain s Hs)).
    now apply signatureMatches_iff.
Qed.

(** X7 on the head of a JFIF file. *)
Lemma checkMagicBytes_sound_witness :
  exists type signature,
    In type magicBytes /\ mimeType type = "image/jpeg" /\
    In signature (signatures type) /\
    holdsSignature jpegHead signature.
Proof.
  apply (checkMagicBytes_sound jpegHead "image/jpeg").
  - unfold byteBuffer, jpegHead. repeat (constructor; [lia |]). constructor.
  - reflexivity.
Defined.

(** ** Groups anchored at offset 0 exclude one another *)

Lemma matches_agree (buffer : Buffer) (s t : MagicByte) (k : nat) :
  signatureOffset s = signatureOffset t ->
  maskAt s (Z.of_nat k) = maskAt t (Z.of_nat k) ->
  signatureMatches buffer s = true ->
  signatureMatches buffer t = true ->
  (k < List.length (bytes s))%nat ->
  (k < List.length (bytes t))%nat ->
  bitAnd (nth_error (bytes s) k) (maskAt s (Z.of_nat k))
  = bitAnd (nth_error (bytes t) k) (maskAt s (Z.of_nat k)).
Proof.
  intros Hoff Hmask Hs Ht Hks Hkt.
  apply signatureMatches_iff in Hs, Ht.
  destruct Hs as [_ Hs], Ht as [_ Ht].
  specialize (Hs (Z.of_nat k) ltac:(unfold jsLength; lia)).
  specialize (Ht (Z.of_nat k) ltac:(unfold jsLength; lia)).
  unfold positionMatches in Hs, Ht.
  rewrite <- Hoff, <- Hmask, !arrayGet_nat in Ht.
  rewrite !arrayGet_nat in Hs. congruence.
Qed.

(** Two signatures of the table that differ at position 0 or 1 cannot
    both match. *)
Ltac refute_pair Hs Ht :=
  match type of Hs with
  | signatureMatches ?b ?s = true =>
      match type of Ht with
      | signatureMatches _ ?t = true =>
          first
            [ let P := fresh "P" in
              assert (P := matches_agree b s t 0%nat eq_refl eq_refl Hs Ht
                             ltac:(simpl; lia) ltac:(simpl; lia));
              vm_compute in P; discriminate P
            | let P := fresh "P" in
              assert (P := matches_agree b s t 1%nat eq_refl eq_refl Hs Ht
                             ltac:(simpl; lia) ltac:(simpl; lia));
              vm_compute in P; discriminate P ]
      end
  end.

(** X8.  On any buffer at most one of the six groups anchored at
    offset 0 (PDF, JPEG, PNG, GIF, MP3, WebM) has a matching signature:
    among them the declaration order of the table has no influence on
    the result. *)
Theorem offset_zero_groups_exclusive :
  forall (buffer : Buffer) (t1 t2 : MagicByteDefinition),
    In t1 offsetZeroGroups -> In t2 offsetZeroGroups ->
    anySignatureMatches buffer (signatures t1) = true ->
    anySignatureMatches buffer (signatures t2) = true ->
    t1 = t2.
Proof.
  intros buffer t1 t2 H1 H2 M1 M2.
  rewrite anySignatureMatches_existsb in M1, M2.
  apply existsb_exists in M1, M2.
  destruct M1 as (s1 & Hs1 & M1), M2 as (s2 & Hs2 & M2).
  unfold offsetZeroGroups in H1, H2. simpl in H1, H2.
  repeat (destruct H1 as [<- | H1]; [simpl in Hs1 |]); try contradiction;
    repeat (destruct H2 as [<- | H2]; [simpl in Hs2 |]); try contradiction;
    try reflexivity;
    exfalso;
    repeat (destruct Hs1 as [<- | Hs1]; [| try contradiction]);
    repeat (destruct Hs2 as [<- | Hs2]; [| try contradiction]);
    refute_pair M1 M2.
Qed.

(** X8 on the head of a JFIF file: [image/jpeg] matches it, and so does
    [image/jpeg]. *)
Lemma offset_zero_groups_exclusive_witness : jpegDef = jpegDef.
Proof.
  apply (offset_zero_groups_exclusive jpegHead jpegDef jpegDef).
  - unfold offsetZeroGroups. simpl. tauto.
  - unfold offsetZeroGroups. simpl. tauto.
  - reflexivity.
  - reflexivity.
Defined.

(** ** Masks shorter than the signature *)

Lemma bitAnd_undefined_mask (a : option Z) : bitAnd a None = 0.
Proof. unfold bitAnd. simpl. apply Z.land_0_r. Qed.

Lemma arrayGet_beyond (arr : list Z) (i : Z) :
  jsLength arr <= i -> arrayGet arr i = None.
Proof.
  unfold jsLength, arrayGet. intros Hi.
  destruct (Z.ltb_spec i 0); [reflexivity |].
  apply nth_error_None. lia.
Qed.

(** X9.  A mask is not required to be as long as the signature's
    bytes: past the end of the mask, [signature.mask[i]] is [undefined]
    and the position is not compared.  A signature with a mask matches
    exactly when the positions the mask covers agree; with the empty
    mask it matches every buffer that is long enough. *)
Theorem short_mask_is_wildcard :
  forall (buffer : Buffer) (signature : MagicByte) (m : list Z),
    mask signature = Some m ->
    sufficientLength buffer signature ->
    (signatureMatches buffer signature = true <->
     forall i, 0 <= i < Z.min (jsLength (bytes signature)) (jsLength m) ->
               positionMatches buffer signature i) /\
    (m = [] -> signatureMatches buffer signature = true).
Proof.
  intros buffer signature m Hmask Hsuff.
  assert (Hiff : signatureMatches buffer signature = true <->
                 forall i, 0 <= i < Z.min (jsLength (bytes signature)) (jsLength m) ->
                           positionMatches buffer signature i).
  { rewrite signatureMatches_iff. split.
    - intros [_ H] i Hi. apply H. lia.
    - intros H. split; [exact Hsuff |]. intros i Hi.
      destruct (Z.lt_ge_cases i (jsLength m)) as [Hlt | Hge].
      + apply H. lia.
      + unfold positionMatches, maskAt. rewrite Hmask.
        rewrite (arrayGet_beyond m i Hge).
        now rewrite !bitAnd_undefined_mask. }
  split; [exact Hiff |].
  intros ->. apply Hiff. intros i Hi. unfold jsLength in Hi. simpl in Hi. lia.
Qed.

(** X9 on a signature [25 50 44 46] with the empty mask and a buffer of
    four other bytes. *)
Lemma short_mask_is_wildcard_witness :
  signatureMatches [1; 2; 3; 4]
    {| bytes := [0x25; 0x50; 0x44; 0x46]; mask := Some []; offset := None |}
  = true.
Proof.
  refine (proj2 (short_mask_is_wildcard [1; 2; 3; 4]
            {| bytes := [0x25; 0x50; 0x44; 0x46]; mask := Some [];
               offset := None |} [] eq_refl _) eq_refl).
  vm_compute. discriminate.
Defined.

(** ** Letter case and the derived extension *)

Lemma lowerChar_idem (c : ascii) : lowerChar (lowerChar c) = lowerChar c.
Proof. destruct c as [[] [] [] [] [] [] [] []]; reflexivity. Qed.

Lemma lowerChar_slash (c : ascii) :
  (lowerChar c =? "/")%char = (c =? "/")%char.
Proof. destruct c as [[] [] [] [] [] [] [] []]; reflexivity. Qed.

Lemma lowerChar_is_dot (c : ascii) :
  (lowerChar c =? ".")%char = (c =? ".")%char.
Proof. destruct c as [[] [] [] [] [] [] [] []]; reflexivity. Qed.

Lemma toLowerCase_idem (s : string) :
  toLowerCase (toLowerCase s) = toLowerCase s.
Proof.
  induction s as [| c s IH]; simpl; [reflexivity |].
  now rewrite lowerChar_idem, IH.
Qed.

Lemma toLowerCase_slice1 (s : string) :
  toLowerCase (slice1 s) = slice1 (toLowerCase s).
Proof. now destruct s. Qed.

Lemma list_of_toLowerCase (s : string) :
  list_ascii_of_string (toLowerCase s) = map lowerChar (list_ascii_of_string s).
Proof. induction s as [| c s IH]; simpl; [reflexivity | now rewrite IH]. Qed.

Lemma toLowerCase_of_list (l : list ascii) :
  toLowerCase (string_of_list_ascii l) = string_of_list_ascii (map lowerChar l).
Proof. induction l as [| c l IH]; simpl; [reflexivity | now rewrite IH]. Qed.

Lemma hasChar_toLowerCase_slash (s : string) :
  hasChar "/" (toLowerCase s) = hasChar "/" s.
Proof.
  unfold hasChar. rewrite list_of_toLowerCase.
  induction (list_ascii_of_string s) as [| c l IH]; simpl; [reflexivity |].
  now rewrite lowerChar_slash, IH.
Qed.

Lemma hasChar_toLowerCase_dot (s : string) :
  hasChar "." (toLowerCase s) = hasChar "." s.
Proof.
  unfold hasChar. rewrite list_of_toLowerCase.
  induction (list_ascii_of_string s) as [| c l IH]; simpl; [reflexivity |].
  now rewrite lowerChar_is_dot, IH.
Qed.

(** The scan of [path.extname] tests characters against ['/'] and ['.']
    only, which the case mapping leaves alone. *)
Lemma extnameScan_lower (l : list ascii) :
  forall st, extnameScan (map lowerChar l) st = extnameScan l st.
Proof.
  induction l as [| c l IH]; intros st; [reflexivity |].
  simpl. rewrite lowerChar_slash, lowerChar_is_dot, length_map, !IH.
  reflexivity.
Qed.

Lemma slice_toLowerCase (s : string) (a b : Z) :
  slice (toLowerCase s) a b = toLowerCase (slice s a b).
Proof.
  unfold slice. rewrite !substring_list, list_of_toLowerCase.
  now rewrite skipn_map, firstn_map, toLowerCase_of_list.
Qed.

Lemma extname_toLowerCase (path : string) :
  extname (toLowerCase path) = toLowerCase (extname path).
Proof.
  unfold extname.
  rewrite list_of_toLowerCase, <- map_rev, extnameScan_lower.
  destruct (_ || _); [reflexivity | apply slice_toLowerCase].
Qed.

Lemma derivedExtension_toLowerCase (d : string) :
  derivedExtension (toLowerCase d) = derivedExtension d.
Proof.
  unfold derivedExtension.
  now rewrite extname_toLowerCase, toLowerCase_idem.
Qed.

Lemma derivedExtension_lowercase (d : string) :
  toLowerCase (derivedExtension d) = derivedExtension d.
Proof.
  unfold derivedExtension.
  now rewrite toLowerCase_slice1, toLowerCase_idem.
Qed.

(** X10.  The extension fallback ignores letter case: two descriptors
    that differ only in the case of their letters derive the same
    extension and get the same fallback result, so they resolve alike
    whenever no signature is found for either. *)
Theorem fallback_ignores_case :
  forall d1 d2 : string,
    toLowerCase d1 = toLowerCase d2 ->
    derivedExtension d1 = derivedExtension d2 /\
    (forall table, extensionFallback table d1 = extensionFallback table d2) /\
    (forall w, noSignatureResult w d1 -> noSignatureResult w d2 ->
               getMimeType w d1 = getMimeType w d2).
Proof.
  intros d1 d2 Hcase.
  assert (Hext : derivedExtension d1 = derivedExtension d2).
  { rewrite <- (derivedExtension_toLowerCase d1), Hcase.
    apply derivedExtension_toLowerCase. }
  assert (Hfb : forall table, extensionFallback table d1 = extensionFallback table d2).
  { intros table. unfold extensionFallback. now rewrite Hext. }
  split; [exact Hext |]. split; [exact Hfb |].
  intros w H1 H2.
  assert (Hres : forall d, noSignatureResult w d ->
                           getMimeType w d = extensionFallback mimeTypes d).
  { intros d [Hd | (buffer & Hd & Hm)]; unfold getMimeType, getMimeTypeIn;
      rewrite Hd; [reflexivity | now rewrite Hm]. }
  now rewrite (Hres d1 H1), (Hres d2 H2).
Qed.

(** X10 on [FILE.JPG] and [file.jpg], neither of which exists. *)
Lemma fallback_ignores_case_witness :
  getMimeType exampleWorld "FILE.JPG" = getMimeType exampleWorld "file.jpg".
Proof.
  refine (proj2 (proj2 (fallback_ignores_case "FILE.JPG" "file.jpg" eq_refl))
            exampleWorld _ _).
  - now left.
  - now left.
Defined.

(** ** What a derived extension looks like *)

Lemma hasChar_tail (c x : ascii) (s : string) :
  hasChar c (String x s) = false -> hasChar c s = false.
Proof.
  rewrite hasChar_cons. intros H. now apply orb_false_iff in H.
Qed.

(** Whatever the descriptor, the derived extension is empty or the
    lower-cased text after the last dot of the last segment, which
    holds neither a dot nor a slash. *)
Lemma derivedExtension_shape (d : string) :
  derivedExtension d = "" \/
  exists e, hasChar "." e = false /\ hasChar "/" e = false /\
            derivedExtension d = toLowerCase e.
Proof.
  destruct (strip_trailing_slashes d) as (t & k & -> & [-> | (t' & c & -> & Hc)]).
  - left. apply (derivedExtension_no_dot _ [] [] k); [| reflexivity | now left].
    simpl. apply list_of_slashes.
  - assert (Hseg : exists (x : list ascii) (base : string),
               list_ascii_of_string (t' ++ String c "")
               = x ++ list_ascii_of_string base /\
               hasChar "/" base = false /\ base <> "" /\
               (x = [] \/ exists x', x = x' ++ ["/"%char])).
    { destruct (string_split_last "/" (t' ++ String c ""))
        as [Hno | (before & after & Heq & Hafter)].
      - exists [], (t' ++ String c "")%string. repeat split.
        + exact Hno.
        + now destruct t'.
        + now left.
      - exists (list_ascii_of_string before ++ ["/"%char]), after. repeat split.
        + rewrite Heq, list_of_append, <- app_assoc. reflexivity.
        + exact Hafter.
        + intros ->. apply Hc. symmetry.
          now apply (last_char_unique before t').
        + right. now eexists. }
    destruct Hseg as (x & base & HL & Hslash & Hne & Hx).
    assert (HLd : list_ascii_of_string ((t' ++ String c "") ++ slashes k)
                  = x ++ list_ascii_of_string base ++ repeat "/"%char k).
    { now rewrite list_of_append, HL, list_of_slashes, <- app_assoc. }
    destruct (string_split_last "." base) as [Hnd | (b1 & e & -> & He)].
    + left. apply (derivedExtension_no_dot _ x (list_ascii_of_string base) k HLd).
      * now apply plain_of_hasChar.
      * destruct Hx as [-> | Hx]; [now left | right].
        split; [now apply list_of_nonempty | exact Hx].
    + rewrite hasChar_append in Hslash. apply orb_false_iff in Hslash.
      destruct Hslash as [Hb1 Hes]. apply hasChar_tail in Hes.
      destruct b1 as [| y b1].
      * left.
        apply (derivedExtension_leading_dot _ x (list_ascii_of_string e) k).
        -- exact HLd.
        -- now apply plain_of_hasChar.
        -- exact Hx.
      * right. exists e. split; [exact He |]. split; [exact Hes |].
        destruct (string_last (String y b1)) as (b1' & c2 & Eb1); [discriminate |].
        rewrite Eb1 in Hb1, HLd.
        rewrite hasChar_append in Hb1. apply orb_false_iff in Hb1.
        destruct Hb1 as [_ Hc2]. unfold hasChar in Hc2. simpl in Hc2.
        rewrite orb_false_r in Hc2.
        rewrite <- (string_of_list_ascii_of_string e) at 1.
        apply (derivedExtension_with_stem _
                 (x ++ list_ascii_of_string b1') (list_ascii_of_string e) c2 k).
        -- rewrite HLd, !list_of_append. simpl. rewrite <- !app_assoc. reflexivity.
        -- exact Hc2.
        -- now apply plain_of_hasChar.
Qed.

(** X11.  Whatever the descriptor, the extension handed to the table
    lookup holds no ['.'] and no ['/'] and is in lower case; and when it
    is empty the fallback is the default type. *)
Theorem derivedExtension_invariants :
  forall d : string,
    hasChar "." (derivedExtension d) = false /\
    hasChar "/" (derivedExtension d) = false /\
    toLowerCase (derivedExtension d) = derivedExtension d /\
    (derivedExtension d = "" ->
     extensionFallback mimeTypes d = JsString "application/octet-stream").
Proof.
  intros d.
  assert (Hchars : hasChar "." (derivedExtension d) = false /\
                   hasChar "/" (derivedExtension d) = false).
  { destruct (derivedExtension_shape d) as [-> | (e & Hd & Hs & ->)].
    - now split.
    - now rewrite hasChar_toLowerCase_dot, hasChar_toLowerCase_slash. }
  destruct Hchars as [Hd Hs].
  repeat split; try assumption.
  - apply derivedExtension_lowercase.
  - intros E. unfold extensionFallback. now rewrite E.
Qed.

(** ** When the resolved value is not a string *)

Lemma inherited_lowercase_names (e : string) :
  inheritedName e = true -> toLowerCase e = e ->
  e = "constructor" \/ e = "__proto__".
Proof.
  unfold inheritedName.
  destruct (assoc e objectPrototype) as [v |] eqn:E; [| discriminate].
  intros _ Hlow. apply assoc_In in E. simpl in E.
  repeat (destruct E as [[= <- <-] | E];
          [first [now left | now right | vm_compute in Hlow; discriminate Hlow] |]).
  contradiction.
Qed.

Lemma getMimeType_noSignatureResult (w : World) (d : string) :
  noSignatureResult w d -> getMimeType w d = extensionFallback mimeTypes d.
Proof.
  intros [Hd | (buffer & Hd & Hm)]; unfold getMimeType, getMimeTypeIn;
    rewrite Hd; [reflexivity | now rewrite Hm].
Qed.

Lemma signature_result_or_none (w : World) (d : string) :
  (exists buffer m, acquire w d = Some buffer /\ checkMagicBytes buffer = Some m /\
                    getMimeType w d = JsString m) \/
  noSignatureResult w d.
Proof.
  destruct (acquire w d) as [buffer |] eqn:Ha; [| right; now left].
  destruct (checkMagicBytes buffer) as [m |] eqn:Hm.
  - left. exists buffer, m.
    split; [reflexivity |]. split; [exact Hm |].
    unfold getMimeType, getMimeTypeIn. rewrite Ha, Hm.
    now rewrite (checkMagicBytes_truthy _ _ Hm).
  - right. right. now exists buffer.
Qed.

Lemma extensionFallback_string_off_prototype (d : string) :
  inheritedName (derivedExtension d) = false ->
  exists m, extensionFallback mimeTypes d = JsString m /\
            (In m (map snd mimeTypes) \/ m = "application/octet-stream").
Proof.
  intros Hoff. rewrite (extensionFallback_off_prototype mimeTypes d Hoff).
  destruct (assoc (derivedExtension d) mimeTypes) as [v |] eqn:E.
  - rewrite (mimeTypes_values_nonempty _ _ E). exists v. split; [reflexivity |].
    left. apply assoc_In in E. now apply (in_map snd) in E.
  - eexists. split; [reflexivity | now right].
Qed.

(** X12.  [getMimeType] resolves to something other than a string in
    exactly one situation: no signature was found (the acquisition
    failed or the matcher returned [null]) and the derived extension is
    ["constructor"] or ["__proto__"].  The value is then the inherited
    [Object] function, respectively [Object.prototype], and each of the
    four predicates throws. *)
Theorem non_string_result_characterised :
  forall (w : World) (d : string),
    ((forall m, getMimeType w d <> JsString m) <->
     noSignatureResult w d /\
     (derivedExtension d = "constructor" \/ derivedExtension d = "__proto__")) /\
    (noSignatureResult w d -> derivedExtension d = "constructor" ->
     getMimeType w d = JsFunction "Object") /\
    (noSignatureResult w d -> derivedExtension d = "__proto__" ->
     getMimeType w d = JsObjectPrototype) /\
    ((forall m, getMimeType w d <> JsString m) ->
     isDocument w d = None /\ isImage w d = None /\
     isAudio w d = None /\ isVideo w d = None).
Proof.
  intros w d.
  assert (Hctor : noSignatureResult w d -> derivedExtension d = "constructor" ->
                  getMimeType w d = JsFunction "Object").
  { intros Hno He. rewrite (getMimeType_noSignatureResult w d Hno).
    unfold extensionFallback. now rewrite He. }
  assert (Hproto : noSignatureResult w d -> derivedExtension d = "__proto__" ->
                   getMimeType w d = JsObjectPrototype).
  { intros Hno He. rewrite (getMimeType_noSignatureResult w d Hno).
    unfold extensionFallback. now rewrite He. }
  split; [| split; [exact Hctor | split; [exact Hproto |]]].
  - split.
    + intros Hns.
      destruct (signature_result_or_none w d) as [(buffer & m & _ & _ & Hm) | Hno];
        [now destruct (Hns m) |].
      split; [exact Hno |].
      destruct (inheritedName (derivedExtension d)) eqn:Hin.
      * apply inherited_lowercase_names;
          [exact Hin | apply derivedExtension_lowercase].
      * destruct (extensionFallback_string_off_prototype d Hin) as (m & Hm & _).
        rewrite <- (getMimeType_noSignatureResult w d Hno) in Hm.
        now destruct (Hns m).
    + intros [Hno [He | He]] m.
      * rewrite (Hctor Hno He). discriminate.
      * rewrite (Hproto Hno He). discriminate.
  - intros Hns. unfold isDocument, isImage, isAudio, isVideo.
    destruct (getMimeType w d) as [| m | name |] eqn:E; try (now repeat split).
    now destruct (Hns m).
Qed.

(** X12 on the missing file [x.constructor]. *)
Lemma non_string_result_characterised_witness :
  getMimeType exampleWorld "x.constructor" = JsFunction "Object".
Proof.
  refine (proj1 (proj2 (non_string_result_characterised exampleWorld
                          "x.constructor")) _ eq_refl).
  now left.
Defined.

(** ** Every resolved type falls in exactly one category *)

Lemma resolved_string_origin (w : World) (d m : string) :
  getMimeType w d = JsString m ->
  In m (map mimeType magicBytes) \/ In m (map snd mimeTypes) \/
  m = "application/octet-stream".
Proof.
  intros Hres.
  destruct (signature_result_or_none w d) as [(buffer & m' & _ & Hm & Hm') | Hno].
  - left. rewrite Hm' in Hres. injection Hres as <-.
    now apply checkMagicBytesIn_mimeType in Hm.
  - right. rewrite (getMimeType_noSignatureResult w d Hno) in Hres.
    destruct (inheritedName (derivedExtension d)) eqn:Hin.
    + exfalso.
      destruct (inherited_lowercase_names _ Hin (derivedExtension_lowercase d))
        as [He | He]; unfold extensionFallback in Hres; rewrite He in Hres;
        discriminate Hres.
    + destruct (extensionFallback_string_off_prototype d Hin) as (m' & Hm' & Hor).
      rewrite Hm' in Hres. now injection Hres as <-.
Qed.

Lemma resolved_string_one_category (m : string) :
  In m (map mimeType magicBytes) \/ In m (map snd mimeTypes) \/
  m = "application/octet-stream" ->
  countTrue [documentTest m; imageTest m; audioTest m; videoTest m] = 1%nat.
Proof.
  intros [H | [H | ->]]; [simpl in H .. | reflexivity];
    repeat (destruct H as [<- | H]; [reflexivity |]); contradiction.
Qed.

(** X13.  Whenever [getMimeType] resolves to a string, exactly one of
    [isDocument], [isImage], [isAudio] and [isVideo] is [true]; in
    particular a file that nothing identifies (no signature, extension
    not in the table) resolves to ["application/octet-stream"] and is
    therefore a document. *)
Theorem exactly_one_category :
  forall (w : World) (d : string),
    (forall m, getMimeType w d = JsString m ->
       countTrue [holds (isDocument w d); holds (isImage w d);
                  holds (isAudio w d); holds (isVideo w d)] = 1%nat) /\
    (noSignatureResult w d ->
     inheritedName (derivedExtension d) = false ->
     assoc (derivedExtension d) mimeTypes = None ->
     isDocument w d = Some true /\ isImage w d = Some false /\
     isAudio w d = Some false /\ isVideo w d = Some false).
Proof.
  intros w d. split.
  - intros m Hres.
    pose proof (resolved_string_one_category m (resolved_string_origin w d m Hres))
      as Hone.
    unfold isDocument, isImage, isAudio, isVideo. rewrite Hres. simpl onString.
    unfold holds, countTrue in *.
    destruct (documentTest m), (imageTest m), (audioTest m), (videoTest m);
      simpl in *; congruence.
  - intros Hno Hin Hassoc.
    unfold isDocument, isImage, isAudio, isVideo.
    rewrite (getMimeType_noSignatureResult w d Hno).
    rewrite (extensionFallback_off_prototype mimeTypes d Hin), Hassoc.
    now repeat split.
Qed.

(** X13 on the file [notes.xyz], which holds plain text. *)
Lemma exactly_one_category_witness :
  isDocument exampleWorld "notes.xyz" = Some true /\
  isImage exampleWorld "notes.xyz" = Some false /\
  isAudio exampleWorld "notes.xyz" = Some false /\
  isVideo exampleWorld "notes.xyz" = Some false.
Proof.
  refine (proj2 (exactly_one_category exampleWorld "notes.xyz") _ eq_refl eq_refl).
  right. exists [0x68; 0x65; 0x6c; 0x6c; 0x6f; 0; 0; 0; 0; 0; 0; 0].
  split; reflexivity.
Defined.

(** ** Round trips between MIME types and extensions *)

Lemma mimeTypes_entry_facts (e v : string) :
  In (e, v) mimeTypes ->
  forallb plainChar (list_ascii_of_string e) = true /\
  toLowerCase e = e /\
  toLowerCase v = v /\
  getProperty mimeTypes e = JsString v /\
  truthy (JsString v) = true.
Proof.
  intros H. simpl in H.
  repeat (destruct H as [[= <- <-] | H]; [now repeat split |]).
  contradiction.
Qed.

Lemma derivedExtension_of_named (name : string) (c : ascii) (e : string) :
  (c =? "/")%char = false ->
  forallb plainChar (list_ascii_of_string e) = true ->
  derivedExtension (name ++ String c ("." ++ e)) = toLowerCase e.
Proof.
  intros Hc He.
  rewrite <- (string_of_list_ascii_of_string e) at 2.
  apply (derivedExtension_with_stem _ (list_ascii_of_string name)
           (list_ascii_of_string e) c 0); [| exact Hc | exact He].
  rewrite list_of_append. simpl. now rewrite app_nil_r.
Qed.

(** X14.  From a MIME type to an extension and back: when
    [getMimeExtension x] returns an extension, a path that ends in a
    file name followed by that extension, and for which no signature is
    found, resolves to [x] in lower case. *)
Theorem mime_to_extension_and_back :
  forall (x ext : string),
    getMimeExtension x = Some ext ->
    forall (w : World) (name : string) (c : ascii),
      c <> "/"%char ->
      noSignatureResult w (name ++ String c ext) ->
      getMimeType w (name ++ String c ext) = JsString (toLowerCase x).
Proof.
  intros x ext Hext w name c Hc Hno.
  apply getMimeExtensionIn_first_match in Hext.
  destruct Hext as (before & e & v & after & Heq & -> & Hv & _).
  assert (Hin : In (e, v) mimeTypes) by (rewrite Heq; apply in_elt).
  destruct (mimeTypes_entry_facts e v Hin) as (Hplain & He & Hvlow & Hget & Htruthy).
  rewrite (getMimeType_noSignatureResult w _ Hno).
  unfold extensionFallback.
  rewrite derivedExtension_of_named;
    [| now apply Ascii.eqb_neq | exact Hplain].
  rewrite He, Hget. unfold jsOr. rewrite Htruthy.
  now rewrite <- Hv, Hvlow.
Qed.

(** X14 on ["IMAGE/PNG"] and the missing file [scan.png]. *)
Lemma mime_to_extension_and_back_witness :
  getMimeType exampleWorld "scan.png" = JsString (toLowerCase "IMAGE/PNG").
Proof.
  refine (mime_to_extension_and_back "IMAGE/PNG" ".png" eq_refl
            exampleWorld "sca" "n" _ _).
  - discriminate.
  - now left.
Defined.

Lemma getMimeExtension_never_jpeg (x : string) :
  getMimeExtension x <> Some ".jpeg".
Proof.
  unfold getMimeExtension, getMimeExtensionIn, objectEntries, mimeTypes.
  set (f := fun entry : string * string =>
              (toLowerCase (snd entry) =? toLowerCase x)%string).
  assert (Hf : f ("jpg", "image/jpeg") = f ("jpeg", "image/jpeg")) by reflexivity.
  simpl find.
  repeat match goal with
  | |- match (if ?b then _ else _) with _ => _ end <> _ =>
      destruct b eqn:?; [simpl; try discriminate |]
  end;
  first [congruence | discriminate].
Qed.

(** X15.  From an extension to its MIME type and back: for every entry
    of the table except [jpeg], [getMimeExtension] of the entry's MIME
    type returns that very extension; [".jpeg"] is the one extension
    that [getMimeExtension] never returns, for any input. *)
Theorem extension_to_mime_and_back :
  (forall e m, In (e, m) mimeTypes -> e <> "jpeg" ->
               getMimeExtension m = Some ("." ++ e)%string) /\
  (forall x, getMimeExtension x <> Some ".jpeg").
Proof.
  split; [| exact getMimeExtension_never_jpeg].
  intros e m Hin Hne. simpl in Hin.
  repeat (destruct Hin as [[= <- <-] | Hin];
          [first [reflexivity | now destruct Hne] |]).
  contradiction.
Qed.

(** X15 on the entry [mp3 -> audio/mpeg]. *)
Lemma extension_to_mime_and_back_witness :
  getMimeExtension "audio/mpeg" = Some ".mp3".
Proof.
  refine (proj1 extension_to_mime_and_back "mp3" "audio/mpeg" _ _).
  - simpl. tauto.
  - discriminate.
Defined.

(** X16.  Every MIME type the matcher can return is a value of the
    extension table: [getMimeExtension] gives an extension for it, and
    that extension maps back to the type. *)
Theorem detected_type_has_extension :
  forall (buffer : Buffer) (m : string),
    checkMagicBytes buffer = Some m ->
    exists e, getMimeExtension m = Some ("." ++ e)%string /\
              getProperty mimeTypes e = JsString m.
Proof.
  intros buffer m H. apply checkMagicBytesIn_mimeType in H. simpl in H.
  repeat (destruct H as [<- | H]; [eexists; split; reflexivity |]).
  contradiction.
Qed.

(** X16 on the head of a JFIF file. *)
Lemma detected_type_has_extension_witness :
  exists e, getMimeExtension "image/jpeg" = Some ("." ++ e)%string /\
            getProperty mimeTypes e = JsString "image/jpeg".
Proof.
  apply (detected_type_has_extension jpegHead "image/jpeg").
  reflexivity.
Defined.

Lemma toLowerCase_append (a b : string) :
  toLowerCase (a ++ b) = (toLowerCase a ++ toLowerCase b)%string.
Proof. induction a as [| c a IH]; simpl; [reflexivity | now rewrite IH]. Qed.

(** X17.  Every entry of the extension table is reachable: a path that
    ends in a file name followed by a dot and the entry's extension,
    written in any letter case, resolves to the entry's MIME type when
    no signature is found. *)
Theorem table_entry_resolves :
  forall (e v : string),
    In (e, v) mimeTypes ->
    forall (w : World) (name written : string) (c : ascii),
      c <> "/"%char ->
      toLowerCase written = e ->
      noSignatureResult w (name ++ String c ("." ++ written)) ->
      getMimeType w (name ++ String c ("." ++ written)) = JsString v.
Proof.
  intros e v Hin w name written c Hc Hcase Hno.
  destruct (mimeTypes_entry_facts e v Hin) as (Hplain & He & _ & Hget & Htruthy).
  rewrite (getMimeType_noSignatureResult w _ Hno).
  unfold extensionFallback.
  rewrite <- derivedExtension_toLowerCase, toLowerCase_append.
  simpl toLowerCase. rewrite Hcase.
  change (String (lowerChar ".") e) with ("." ++ e)%string.
  rewrite derivedExtension_of_named; [| | exact Hplain].
  - rewrite He, Hget. unfold jsOr. now rewrite Htruthy.
  - rewrite lowerChar_slash. now apply Ascii.eqb_neq.
Qed.

(** X17 on the missing file [Movie.MKV]. *)
Lemma table_entry_resolves_witness :
  getMimeType exampleWorld "Movie.MKV" = JsString "video/x-matroska".
Proof.
  refine (table_entry_resolves "mkv" "video/x-matroska" _
            exampleWorld "Movi" "MKV" "e" _ eq_refl _).
  - simpl. tauto.
  - discriminate.
  - now left.
Defined.

(** ** Local files and URLs *)

(** X18.  A URL and a local path resolve alike when the response body
    and the file hold the same bytes and the two descriptors derive the
    same extension: downloading the whole body and reading 12 bytes of
    the file give the same detection. *)
Theorem url_and_file_resolve_alike :
  forall (w : World) (url path : string) (content : list Z),
    isUrl url = true -> httpBody w url = Some content ->
    isUrl path = false -> fsFile w path = FileBytes content ->
    derivedExtension url = derivedExtension path ->
    getMimeType w url = getMimeType w path.
Proof.
  intros w url path content Hurl Hbody Hlocal Hfile Hext.
  unfold getMimeType, getMimeTypeIn, acquire, getBufferFromUrl.
  rewrite Hurl, Hbody, Hlocal, Hfile, checkMagicBytes_of_local_buffer.
  unfold extensionFallback. now rewrite Hext.
Qed.

(** X18 on the file [clip.mp4] and the URL that serves the same bytes. *)
Lemma url_and_file_resolve_alike_witness :
  getMimeType mirrorWorld "https://x.com/clip.mp4"
  = getMimeType mirrorWorld "clip.mp4".
Proof.
  apply (url_and_file_resolve_alike mirrorWorld "https://x.com/clip.mp4"
           "clip.mp4" mp4Head); reflexivity.
Defined.
